(** * Minesweeper knowledge engine: a shallow embedding of [minesweeper.py]

    The development follows the three classes of the source file:
    [Minesweeper] (the board), [Sentence] and [MinesweeperAI].  Python
    sets of cells are finite sets ([gset]) of integer pairs, lists are
    lists, and every method becomes a function that takes the object's
    state and returns the new one.  *)

From stdpp Require Import gmap list.
From Stdlib Require Import ZArith Lia.

Set Warnings "-clear-no-such-hyp".

Local Open Scope Z_scope.

(** ** Cells and Python objects *)

(** A cell is a tuple [(i, j)] of Python integers; nothing in the agent
    restricts them to the board, so they range over all of [Z]. *)
Definition cell : Type := (Z * Z)%type.

(** The per-sentence sets [Sentence.mines] and [Sentence.safe] never
    receive cells: what the source adds to them is either [None] (the
    result of [set.remove]) or a generator object, which hashes and
    compares by identity.  A generator is identified by its allocation
    number. *)
Inductive pyobj : Type :=
  | PCell (c : cell)
  | PNone
  | PGen (id : nat).

#[global] Instance pyobj_eq_dec : EqDecision pyobj.
Proof. solve_decision. Defined.

Definition pyobj_enc (o : pyobj) : cell + (unit + nat) :=
  match o with
  | PCell c => inl c
  | PNone => inr (inl tt)
  | PGen n => inr (inr n)
  end.

Definition pyobj_dec (x : cell + (unit + nat)) : pyobj :=
  match x with
  | inl c => PCell c
  | inr (inl _) => PNone
  | inr (inr n) => PGen n
  end.

#[global] Instance pyobj_countable : Countable pyobj.
Proof.
  apply (inj_countable' pyobj_enc pyobj_dec).
  by intros [].
Defined.

(** The view of a set of cells as a set of Python objects. *)
Definition cells_as_objs (s : gset cell) : gset pyobj :=
  set_map PCell s.

(** ** class Sentence *)

Record Sentence : Type := mkSentence {
  cells : gset cell;
  count : Z;
  s_mines : gset pyobj;
  s_safe : gset pyobj
}.

#[global] Instance Sentence_eq_dec : EqDecision Sentence.
Proof. solve_decision. Defined.

(** [Sentence.__init__(cells, count)] *)
Definition new_Sentence (cs : gset cell) (n : Z) : Sentence :=
  mkSentence cs n ∅ ∅.

(** [Sentence.__eq__] *)
Definition Sentence_eqb (a b : Sentence) : bool :=
  bool_decide (cells a = cells b) && bool_decide (count a = count b).

(** [Sentence.known_mines]: when [len(self.cells) == self.count] the
    method adds ONE object, the generator [(i for i in self.cells)], to
    [self.mines]; it then returns [self.mines].  [fresh] is the
    allocation number the new generator receives; the result is the
    returned set, the sentence afterwards and the next allocation
    number. *)
Definition known_mines (fresh : nat) (s : Sentence)
  : gset pyobj * Sentence * nat :=
  if bool_decide (Z.of_nat (size (cells s)) = count s) then
    let m := s_mines s ∪ {[ PGen fresh ]} in
    (m, mkSentence (cells s) (count s) m (s_safe s), S fresh)
  else (s_mines s, s, fresh).

(** [Sentence.known_safes]: the guard is [len(self.cells) == 0]. *)
Definition known_safes (fresh : nat) (s : Sentence)
  : gset pyobj * Sentence * nat :=
  if bool_decide (size (cells s) = 0%nat) then
    let m := s_safe s ∪ {[ PGen fresh ]} in
    (m, mkSentence (cells s) (count s) (s_mines s) m, S fresh)
  else (s_safe s, s, fresh).

(** [Sentence.mark_mine]: [set.remove] returns [None], which is what
    ends up in [self.mines]. *)
Definition Sentence_mark_mine (c : cell) (s : Sentence) : Sentence :=
  if bool_decide (c ∈ cells s) then
    mkSentence (cells s ∖ {[ c ]}) (count s - 1)
               (s_mines s ∪ {[ PNone ]}) (s_safe s)
  else s.

(** [Sentence.mark_safe] *)
Definition Sentence_mark_safe (c : cell) (s : Sentence) : Sentence :=
  if bool_decide (c ∈ cells s) then
    mkSentence (cells s ∖ {[ c ]}) (count s)
               (s_mines s) (s_safe s ∪ {[ PNone ]})
  else s.

(** ** class Minesweeper (the board) *)

Record Minesweeper : Type := mkBoard {
  b_height : Z;
  b_width : Z;
  board : list (list bool)
}.

(** [l[i]] on a Python list: a negative index counts from the end, and
    [None] stands for the [IndexError] raised outside [-len(l) .. len(l)-1]. *)
Definition py_index {A : Type} (l : list A) (i : Z) : option A :=
  if bool_decide (0 ≤ i) then l !! Z.to_nat i
  else if bool_decide (- Z.of_nat (length l) ≤ i)
       then l !! Z.to_nat (Z.of_nat (length l) + i)
       else None.

(** [self.board[i][j]] *)
Definition board_at (g : Minesweeper) (i j : Z) : option bool :=
  row ← py_index (board g) i; py_index row j.

(** [Minesweeper.is_mine] *)
Definition is_mine (g : Minesweeper) (c : cell) : option bool :=
  board_at g c.1 c.2.

(** The nine cells [(i, j)] with [i] in [range(x-1, x+2)] and [j] in
    [range(y-1, y+2)], in the order the two nested loops visit them. *)
Definition block (c : cell) : list cell :=
  i ← seqZ (c.1 - 1) 3; j ← seqZ (c.2 - 1) 3; [(i, j)].

(** [Minesweeper.nearby_mines]; [None] when an index into the board
    raises. *)
Definition nearby_mines (g : Minesweeper) (c : cell) : option Z :=
  foldl (λ acc t,
           n ← acc;
           if bool_decide (t = c) then Some n
           else if bool_decide (0 ≤ t.1 < b_height g ∧ 0 ≤ t.2 < b_width g)
                then b ← board_at g t.1 t.2; Some (if b : bool then n + 1 else n)
                else Some n)
        (Some 0) (block c).

(** ** class MinesweeperAI *)

Record AI : Type := mkAI {
  height : Z;
  width : Z;
  potential_moves : list cell;
  moves_made : gset cell;
  mines : gset cell;
  safes : gset cell;
  knowledge : list Sentence
}.

Definition set_potential_moves (l : list cell) (a : AI) : AI :=
  mkAI (height a) (width a) l (moves_made a) (mines a) (safes a) (knowledge a).
Definition set_moves_made (s : gset cell) (a : AI) : AI :=
  mkAI (height a) (width a) (potential_moves a) s (mines a) (safes a) (knowledge a).
Definition set_mines (s : gset cell) (a : AI) : AI :=
  mkAI (height a) (width a) (potential_moves a) (moves_made a) s (safes a) (knowledge a).
Definition set_safes (s : gset cell) (a : AI) : AI :=
  mkAI (height a) (width a) (potential_moves a) (moves_made a) (mines a) s (knowledge a).
Definition set_knowledge (k : list Sentence) (a : AI) : AI :=
  mkAI (height a) (width a) (potential_moves a) (moves_made a) (mines a) (safes a) k.

(** [MinesweeperAI.__init__]: [potential_moves] is the comprehension
    [[(i,j) for i in range(height) for j in range(width)]]. *)
Definition all_cells (h w : Z) : list cell :=
  i ← seqZ 0 h; j ← seqZ 0 w; [(i, j)].

Definition new_AI (h w : Z) : AI :=
  mkAI h w (all_cells h w) ∅ ∅ ∅ [].

(** [list.remove(x)]: drops the first occurrence; [None] stands for the
    [ValueError] raised when there is none. *)
Fixpoint list_remove (x : cell) (l : list cell) : option (list cell) :=
  match l with
  | [] => None
  | y :: l' => if decide (y = x) then Some l' else (y ::.) <$> list_remove x l'
  end.

(** [try: l.remove(x) except: ...] with a handler that changes nothing. *)
Definition try_remove (x : cell) (l : list cell) : list cell :=
  default l (list_remove x l).

(** [MinesweeperAI.mark_mine] *)
Definition mark_mine (c : cell) (a : AI) : AI :=
  mkAI (height a) (width a)
       (try_remove c (potential_moves a))
       (moves_made a)
       (mines a ∪ {[ c ]})
       (safes a)
       (Sentence_mark_mine c <$> knowledge a).

(** [MinesweeperAI.mark_safe] *)
Definition mark_safe (c : cell) (a : AI) : AI :=
  mkAI (height a) (width a)
       (potential_moves a)
       (moves_made a)
       (mines a)
       (safes a ∪ {[ c ]})
       (Sentence_mark_safe c <$> knowledge a).

(** [for i in s: f(i)] over a Python set.  The order in which a set is
    visited is not specified by Python; the loops of [add_knowledge]
    call [mark_safe] or [mark_mine] on each element, and those calls
    commute (lemmas [mark_safe_comm] and [mark_mine_comm] below), so
    any order yields the same state. *)
Definition for_each (f : cell → AI → AI) (s : gset cell) (a : AI) : AI :=
  foldl (λ st i, f i st) a (elements s).

(** *** add_knowledge, the straight-line part (source lines 211-232) *)

(** [if cell in sentence.cells: sentence.cells.remove(cell)] *)
Definition discard_cell (c : cell) (s : Sentence) : Sentence :=
  if bool_decide (c ∈ cells s) then
    mkSentence (cells s ∖ {[ c ]}) (count s) (s_mines s) (s_safe s)
  else s.

(** The set [cells] built by the two nested [range] loops: there is no
    comparison with [height] or [width]. *)
Definition fresh_neighbours (c : cell) (a : AI) : gset cell :=
  list_to_set
    (filter (λ t, t ≠ c ∧ (t ∉ moves_made a) ∧ (t ∉ safes a) ∧ (t ∉ mines a))
            (block c)).

Definition add_knowledge_start (c : cell) (n : Z) (a : AI) : AI :=
  let a1 := set_moves_made (moves_made a ∪ {[ c ]}) a in
  let a2 := mark_safe c a1 in
  let a3 := set_knowledge (discard_cell c <$> knowledge a2) a2 in
  let new_sentence := new_Sentence (fresh_neighbours c a3) n in
  set_knowledge (knowledge a3 ++ [new_sentence]) a3.

(** *** add_knowledge, the loop (source lines 236-258) *)

(** One execution of the loop body, with [sentence] the element the
    iterator yielded and [ns] the current contents of the object
    [new_sentence]. *)
Definition loop_body (ns sentence : Sentence) (a : AI) : AI :=
  if bool_decide (cells sentence ⊆ cells ns) then
    let new_cells := cells ns ∖ cells sentence in
    let safe_cells := cells ns ∩ cells sentence in
    let new_count := count ns - count sentence in
    let a1 := set_knowledge (knowledge a ++ [new_Sentence new_cells new_count]) a in
    let a2 := for_each mark_safe safe_cells a1 in
    if bool_decide (Z.of_nat (size new_cells) = new_count)
    then for_each mark_mine new_cells a2
    else a2
  else if bool_decide (cells ns ⊆ cells sentence) then
    let new_cells := cells sentence ∖ cells ns in
    let new_count := count sentence - count ns in
    let a1 := set_knowledge (knowledge a ++ [new_Sentence new_cells new_count]) a in
    if bool_decide (Z.of_nat (size new_cells) = new_count)
    then for_each mark_mine new_cells a1
    else a1
  else a.

(** The loop [for sentence in self.knowledge] iterates over the very
    list the body appends to.  Python's list iterator keeps an index
    and compares it with the CURRENT length before every step, so the
    state of the loop is the index [i] together with the agent.
    [new_sentence] is an alias of the list element at position [n]
    (the length of the knowledge base when the call started); the list
    only grows, so that lookup cannot fail and [None] below means that
    the iterator is exhausted (lemma [loop_step_None]). *)
Definition loop_step (n : nat) (p : nat * AI) : option (nat * AI) :=
  match knowledge p.2 !! p.1, knowledge p.2 !! n with
  | Some sentence, Some ns => Some (S p.1, loop_body ns sentence p.2)
  | _, _ => None
  end.

(** The state reached after [k] iterations (or at the exit of the loop,
    when it comes earlier). *)
Fixpoint loop_after (k : nat) (n : nat) (p : nat * AI) : nat * AI :=
  match k with
  | O => p
  | S k' =>
      match loop_step n p with
      | Some p' => loop_after k' n p'
      | None => p
      end
  end.

(** Running the loop with a bound on the number of iterations:
    [Some a] when the loop exits within [fuel] iterations, leaving the
    agent [a]; [None] when it is still running. *)
Fixpoint run_loop (fuel : nat) (n : nat) (p : nat * AI) : option AI :=
  match loop_step n p with
  | None => Some p.2
  | Some p' =>
      match fuel with
      | O => None
      | S f => run_loop f n p'
      end
  end.

(** [MinesweeperAI.add_knowledge(cell, count)] *)
Definition add_knowledge (fuel : nat) (c : cell) (n : Z) (a : AI) : option AI :=
  run_loop fuel (length (knowledge a)) (0%nat, add_knowledge_start c n a).

(** The agent as it stands after [k] iterations of the loop of
    [add_knowledge(c, n)]. *)
Definition during_add_knowledge (k : nat) (c : cell) (n : Z) (a : AI) : AI :=
  (loop_after k (length (knowledge a)) (0%nat, add_knowledge_start c n a)).2.

(** *** The move selectors *)

Inductive exn : Type := IndexError.

Inductive outcome (A : Type) : Type :=
  | Ret (x : A)
  | Raise (e : exn).
Arguments Ret {A} x.
Arguments Raise {A} e.

Section Selectors.

(** The order in which [for cell in self.safes] visits a set.  Python
    leaves it unspecified, so the selectors are defined for any
    enumeration. *)
Variable set_iter : gset cell → list cell.

(** [MinesweeperAI.make_safe_move] *)
Definition make_safe_move (a : AI) : option cell * AI :=
  match List.find (λ c, bool_decide (c ∉ moves_made a)) (set_iter (safes a)) with
  | Some c => (Some c, set_potential_moves (try_remove c (potential_moves a)) a)
  | None => (None, a)
  end.

(** [MinesweeperAI.make_random_move]: [random.choice(seq)] is
    [seq[randbelow(len(seq))]] and raises [IndexError] on an empty
    sequence; [r] is the number drawn from the generator. *)
Definition make_random_move (r : nat) (a : AI) : outcome (cell * AI) :=
  match potential_moves a !! (r `mod` length (potential_moves a))%nat with
  | None => Raise IndexError
  | Some c => Ret (c, set_potential_moves (try_remove c (potential_moves a)) a)
  end.

End Selectors.

(** The calls a driver can make on the agent between two revealed
    cells, and the selector a returned cell came from. *)
Inductive call : Type :=
  | SafeMove
  | RandomMove (r : nat)
  | MarkMine (c : cell)
  | MarkSafe (c : cell).

Inductive selector : Type := BySafe | ByRandom.

(** One call: the cell it hands back (if any) and the agent afterwards.
    An [IndexError] from [make_random_move] leaves the agent as it was. *)
Definition do_call (set_iter : gset cell → list cell) (q : call) (a : AI)
  : option (selector * cell) * AI :=
  match q with
  | SafeMove =>
      match make_safe_move set_iter a with
      | (Some c, a') => (Some (BySafe, c), a')
      | (None, a') => (None, a')
      end
  | RandomMove r =>
      match make_random_move r a with
      | Ret (c, a') => (Some (ByRandom, c), a')
      | Raise _ => (None, a)
      end
  | MarkMine c => (None, mark_mine c a)
  | MarkSafe c => (None, mark_safe c a)
  end.

(** The cells handed back by a sequence of calls, in order. *)
Fixpoint returned (set_iter : gset cell → list cell) (qs : list call) (a : AI)
  : list (selector * cell) :=
  match qs with
  | [] => []
  | q :: qs' =>
      match do_call set_iter q a with
      | (Some e, a') => e :: returned set_iter qs' a'
      | (None, a') => returned set_iter qs' a'
      end
  end.

(** No cell handed back by [make_random_move] was handed back before. *)
Definition random_never_repeats (tr : list (selector * cell)) : Prop :=
  ∀ l1 c l2, tr = l1 ++ (ByRandom, c) :: l2 → c ∉ l1.*2.

(** ** Auxiliary notions for the proofs *)

(** The cell sets of the knowledge base, in order. *)
Definition kn_cells (a : AI) : list (gset cell) := cells <$> knowledge a.

(** The invariant that keeps the loop running.  Before the iterator
    reaches [new_sentence] (position [n]) it is inside the list.  When it
    visits [new_sentence] the first subset test compares the sentence
    with itself, so a sentence is appended and every cell of
    [new_sentence] is marked safe, which empties it.  From then on each
    visited sentence passes one of the two subset tests against the
    empty set, so each iteration appends a sentence and the iterator
    never catches up with the end of the list. *)
Definition keeps_running (n : nat) (p : nat * AI) : Prop :=
  (n < length (kn_cells p.2))%nat ∧
  ((p.1 ≤ n)%nat ∨
   (kn_cells p.2 !! n = Some ∅ ∧ (p.1 < length (kn_cells p.2))%nat)).

(** *** The tail of the loop

    Once [new_sentence] is empty and so is every sentence from the
    iterator's position on, an iteration does nothing but append one
    more empty sentence. *)

Definition tail_ready (n : nat) (p : nat * AI) : bool :=
  bool_decide (p.1 < length (knowledge p.2))%nat &&
  bool_decide (kn_cells p.2 !! n = Some ∅) &&
  forallb (λ s, bool_decide (cells s = ∅)) (drop p.1 (knowledge p.2)).

(** The loop of [add_knowledge(c, n)] has entered its tail after [j]
    iterations. *)
Definition resting (j : nat) (c : cell) (n : Z) (a : AI) : bool :=
  tail_ready (length (knowledge a))
    (loop_after j (length (knowledge a)) (0%nat, add_knowledge_start c n a)).

(** ** Concrete boards and agents *)

(** A 3 x 3 board whose only mine is at [(0,1)]. *)
Definition one_mine_board : Minesweeper :=
  mkBoard 3 3 [[false; true; false]; [false; false; false]; [false; false; false]].

(** An 8 x 8 agent that holds the sentences [{A,B,C} = 1] and
    [{A,B} = 1], with [A = (0,0)], [B = (0,1)] and [C = (0,2)]. *)
Definition two_sentence_agent : AI :=
  mkAI 8 8 (all_cells 8 8) ∅ ∅ ∅
       [new_Sentence {[ (0, 0); (0, 1); (0, 2) ]} 1;
        new_Sentence {[ (0, 0); (0, 1) ]} 1].

(** ** The game object and its constructor *)

(** The part of a [Minesweeper] object that the board record leaves out:
    the set [self.mines] and the set [self.mines_found]. *)
Record Game : Type := mkGame {
  g_board : Minesweeper;
  g_mines : gset cell;
  g_found : gset cell
}.

(** [Minesweeper.won] *)
Definition won (g : Game) : bool := bool_decide (g_found g = g_mines g).

(** The field built by the two nested loops of [Minesweeper.__init__];
    [range(n)] is empty for [n <= 0]. *)
Definition empty_field (h w : Z) : list (list bool) :=
  replicate (Z.to_nat h) (replicate (Z.to_nat w) false).

(** [self.board[i][j] = True] for [0 <= i, j] inside the lists. *)
Definition set_mine (i j : nat) (b : list (list bool)) : list (list bool) :=
  match b !! i with
  | Some row => <[ i := <[ j := true ]> row ]> b
  | None => b
  end.

Inductive init_outcome : Type :=
  | Built (g : Game)
  | RaisesValueError
  | RaisesIndexError
  | StillPlacing.

(** The loop [while len(self.mines) != mines] that places the mines.
    Each element of [draws] is the pair of numbers the generator hands
    to the two calls of [random.randrange], which returns the number
    modulo its argument.  [randrange] raises [ValueError] when its
    argument is not positive, whatever the generator would deliver, so
    an iteration raises on a non-positive dimension before any draw is
    looked at; an index outside the field raises [IndexError].
    [StillPlacing] means that the loop is still running when the draws
    are used up. *)
Fixpoint place_mines (draws : list (nat * nat)) (h w target : Z)
    (b : list (list bool)) (ms : gset cell) {struct draws} : init_outcome :=
  if bool_decide (Z.of_nat (size ms) = target) then
    Built (mkGame (mkBoard h w b) ms ∅)
  else if bool_decide (h ≤ 0) then RaisesValueError
  else if bool_decide (w ≤ 0) then RaisesValueError
  else
    match draws with
    | [] => StillPlacing
    | (r1, r2) :: draws' =>
        let i := (r1 `mod` Z.to_nat h)%nat in
        let j := (r2 `mod` Z.to_nat w)%nat in
        match b !! i ≫= (.!! j) with
        | Some false =>
            place_mines draws' h w target (set_mine i j b)
                        (ms ∪ {[ (Z.of_nat i, Z.of_nat j) ]})
        | Some true => place_mines draws' h w target b ms
        | None => RaisesIndexError
        end
    end.

(** [Minesweeper.__init__(height, width, mines)] *)
Definition new_Minesweeper (draws : list (nat * nat)) (h w target : Z)
  : init_outcome :=
  place_mines draws h w target (empty_field h w) ∅.

(** ** Notions used to state the further properties *)

(** A method call on a [Sentence] object. *)
Inductive sentence_call : Type :=
  | CallMarkMine (c : cell)
  | CallMarkSafe (c : cell)
  | CallKnownMines
  | CallKnownSafes.

(** The sets that the [known_mines] and [known_safes] calls of a
    sequence return, in order. *)
Fixpoint sentence_answers (qs : list sentence_call) (fresh : nat) (s : Sentence)
  : list (gset pyobj) :=
  match qs with
  | [] => []
  | CallMarkMine c :: qs' => sentence_answers qs' fresh (Sentence_mark_mine c s)
  | CallMarkSafe c :: qs' => sentence_answers qs' fresh (Sentence_mark_safe c s)
  | CallKnownMines :: qs' =>
      (known_mines fresh s).1.1 ::
      sentence_answers qs' (known_mines fresh s).2 (known_mines fresh s).1.2
  | CallKnownSafes :: qs' =>
      (known_safes fresh s).1.1 ::
      sentence_answers qs' (known_safes fresh s).2 (known_safes fresh s).1.2
  end.

(** The board has the dimensions recorded with it. *)
Definition board_ok (g : Minesweeper) : Prop :=
  length (board g) = Z.to_nat (b_height g) ∧
  Forall (λ row, length row = Z.to_nat (b_width g)) (board g).

(** No sentence mentions a cell that is in [safes] or in [mines], and no
    cell is in both sets. *)
Definition resolved_pruned (a : AI) : Prop :=
  Forall (λ X, X ## safes a ∪ mines a) (kn_cells a) ∧ safes a ## mines a.

(** A set of Python objects that holds no cell. *)
Definition no_cell_obj (R : gset pyobj) : Prop := ∀ c, PCell c ∉ R.

(** The cells that [nearby_mines] is documented to count: the cells of
    the 3 x 3 block around [c], other than [c], that lie on the board
    and hold a mine. *)
Definition mined_neighbours (g : Minesweeper) (c : cell) : list cell :=
  filter (λ t, t ≠ c ∧ (0 ≤ t.1 < b_height g ∧ 0 ≤ t.2 < b_width g) ∧
               board_at g t.1 t.2 = Some true)
         (block c).

(** The field [b] has [h] rows of [w] squares, its mined squares are
    the cells of [ms], and all of those have non-negative coordinates. *)
Definition field_inv (h w : Z) (b : list (list bool)) (ms : gset cell) : Prop :=
  length b = Z.to_nat h ∧
  Forall (λ row, length row = Z.to_nat w) b ∧
  (∀ i j, b !! i ≫= (.!! j) = Some true ↔ (Z.of_nat i, Z.of_nat j) ∈ ms) ∧
  (∀ t, t ∈ ms → 0 ≤ t.1 ∧ 0 ≤ t.2).

(** A 1 x 2 agent whose two cells are marked safe and whose cell
    [(0,0)] has been played. *)
Definition two_safe_cells_agent : AI :=
  set_moves_made {[ (0, 0) ]} (mark_safe (0, 1) (mark_safe (0, 0) (new_AI 1 2))).

(** * Properties *)

(** ** Sentence *)

Lemma cells_Sentence_mark_safe c s :
  cells (Sentence_mark_safe c s) = cells s ∖ {[ c ]}.
Proof.
  unfold Sentence_mark_safe. case_bool_decide; simpl; [done|].
  apply leibniz_equiv. set_solver.
Qed.

Lemma cells_Sentence_mark_mine c s :
  cells (Sentence_mark_mine c s) = cells s ∖ {[ c ]}.
Proof.
  unfold Sentence_mark_mine. case_bool_decide; simpl; [done|].
  apply leibniz_equiv. set_solver.
Qed.

Lemma Sentence_mark_safe_absent c s :
  c ∉ cells s → Sentence_mark_safe c s = s.
Proof. intros H. unfold Sentence_mark_safe. by rewrite bool_decide_eq_false_2. Qed.

Lemma Sentence_mark_mine_absent c s :
  c ∉ cells s → Sentence_mark_mine c s = s.
Proof. intros H. unfold Sentence_mark_mine. by rewrite bool_decide_eq_false_2. Qed.

Lemma Sentence_mark_safe_idemp c s :
  Sentence_mark_safe c (Sentence_mark_safe c s) = Sentence_mark_safe c s.
Proof.
  apply Sentence_mark_safe_absent.
  rewrite cells_Sentence_mark_safe. set_solver.
Qed.

Lemma Sentence_mark_mine_idemp c s :
  Sentence_mark_mine c (Sentence_mark_mine c s) = Sentence_mark_mine c s.
Proof.
  apply Sentence_mark_mine_absent.
  rewrite cells_Sentence_mark_mine. set_solver.
Qed.

(** What [known_mines] and [known_safes] do leave alone: the cells and
    the count of the sentence. *)
Lemma known_mines_keeps_cells fresh s :
  cells (known_mines fresh s).1.2 = cells s ∧
  count (known_mines fresh s).1.2 = count s.
Proof. unfold known_mines. by case_bool_decide. Qed.

Lemma known_safes_keeps_cells fresh s :
  cells (known_safes fresh s).1.2 = cells s ∧
  count (known_safes fresh s).1.2 = count s.
Proof. unfold known_safes. by case_bool_decide. Qed.

(** A sentence straight from the constructor never answers with one of
    its cells: the returned set is empty or holds the generator. *)
Lemma known_safes_new_Sentence fresh cs n :
  (known_safes fresh (new_Sentence cs n)).1.1 =
    if bool_decide (cs = ∅) then {[ PGen fresh ]} else ∅.
Proof.
  unfold known_safes, new_Sentence; simpl.
  case_bool_decide as H1; case_bool_decide as H2; simpl.
  - apply leibniz_equiv. set_solver.
  - apply size_empty_inv in H1. by apply leibniz_equiv in H1.
  - subst cs. by rewrite size_empty in H1.
  - done.
Qed.

Lemma known_mines_new_Sentence fresh cs n :
  (known_mines fresh (new_Sentence cs n)).1.1 =
    if bool_decide (Z.of_nat (size cs) = n) then {[ PGen fresh ]} else ∅.
Proof.
  unfold known_mines, new_Sentence; simpl.
  case_bool_decide; simpl; [|done].
  apply leibniz_equiv. set_solver.
Qed.

(** C4.  [known_safes] on the sentence [{(0,0)} = 0], whose count is
    zero: the guard of the source tests [len(self.cells) == 0], so the
    method returns the empty set [self.safe] and not the cells of the
    sentence. *)
Theorem known_safes_count_zero_returns_empty :
  let s := new_Sentence {[ (0, 0) ]} 0 in
  count s = 0 ∧
  (known_safes 0 s).1.1 = ∅ ∧
  (known_safes 0 s).1.1 ≠ cells_as_objs (cells s).
Proof.
  simpl. split; [done|]. split; [by vm_compute|].
  intros H. assert (PCell (0, 0) ∈ (known_safes 0 (new_Sentence {[ (0, 0) ]} 0)).1.1) as Hin.
  { rewrite H. unfold cells_as_objs. apply elem_of_map. exists (0, 0). set_solver. }
  revert Hin. rewrite known_safes_new_Sentence. vm_compute. set_solver.
Qed.

(** C5.  [known_mines] on the sentence [{(0,0)} = 1], where the number
    of cells equals the count: the method returns a one-element set
    holding a generator object, not the cells, and [self.mines] has
    changed. *)
Theorem known_mines_full_returns_generator :
  let s := new_Sentence {[ (0, 0) ]} 1 in
  Z.of_nat (size (cells s)) = count s ∧
  (known_mines 0 s).1.1 = {[ PGen 0 ]} ∧
  (known_mines 0 s).1.1 ≠ cells_as_objs (cells s) ∧
  s_mines (known_mines 0 s).1.2 ≠ s_mines s.
Proof.
  simpl. split; [by vm_compute|].
  rewrite known_mines_new_Sentence.
  assert (bool_decide (Z.of_nat (size ({[ (0, 0) ]} : gset cell)) = 1) = true) as ->
    by by vm_compute.
  split; [done|]. split.
  - intros H. assert (PCell (0, 0) ∈ ({[ PGen 0 ]} : gset pyobj)) as Hin.
    { rewrite H. unfold cells_as_objs. apply elem_of_map. exists (0, 0). set_solver. }
    set_solver.
  - intros H.
    assert (PGen 0 ∈ s_mines (known_mines 0 (new_Sentence {[ (0, 0) ]} 1)).1.2) as Hin.
    { apply (bool_decide_unpack _). by vm_compute. }
    rewrite H in Hin. set_solver.
Qed.

(** ** mark_mine and mark_safe *)

Lemma try_remove_nil x : try_remove x [] = [].
Proof. done. Qed.

Lemma try_remove_cons x y l :
  try_remove x (y :: l) = if decide (y = x) then l else y :: try_remove x l.
Proof.
  unfold try_remove; simpl. destruct (decide (y = x)); [done|].
  by destruct (list_remove x l).
Qed.

Lemma try_remove_absent x l : x ∉ l → try_remove x l = l.
Proof.
  induction l as [|y l IH]; [done|]. intros Hn.
  rewrite try_remove_cons. destruct (decide (y = x)) as [->|].
  - exfalso. apply Hn. left.
  - rewrite IH; [done|]. intros ?. apply Hn. by right.
Qed.

Lemma try_remove_sublist x l : try_remove x l ⊆ l.
Proof.
  induction l as [|y l IH]; [done|].
  rewrite try_remove_cons. destruct (decide (y = x)); set_solver.
Qed.

Lemma try_remove_NoDup x l : NoDup l → NoDup (try_remove x l).
Proof.
  induction 1 as [|y l Hy Hl IH]; [constructor|].
  rewrite try_remove_cons. destruct (decide (y = x)); [done|].
  constructor; [|done]. intros Hin. apply Hy. by apply try_remove_sublist in Hin.
Qed.

Lemma try_remove_gone x l : NoDup l → x ∉ try_remove x l.
Proof.
  induction 1 as [|y l Hy Hl IH]; [set_solver|].
  rewrite try_remove_cons. destruct (decide (y = x)) as [->|]; [done|].
  set_solver.
Qed.

Lemma try_remove_comm x y l :
  try_remove x (try_remove y l) = try_remove y (try_remove x l).
Proof.
  destruct (decide (x = y)) as [->|Hxy]; [done|].
  induction l as [|z l IH]; [done|].
  rewrite !(try_remove_cons _ z).
  destruct (decide (z = y)) as [Hzy|Hzy]; destruct (decide (z = x)) as [Hzx|Hzx];
    try congruence; rewrite ?try_remove_cons;
    repeat case_decide; congruence.
Qed.

Lemma Sentence_mark_safe_comm c d s :
  Sentence_mark_safe c (Sentence_mark_safe d s) =
  Sentence_mark_safe d (Sentence_mark_safe c s).
Proof.
  destruct (decide (c = d)) as [->|Hcd]; [done|].
  unfold Sentence_mark_safe.
  repeat (case_bool_decide; simpl in * ); try done; try (exfalso; set_solver).
  f_equal; apply leibniz_equiv; set_solver.
Qed.

Lemma Sentence_mark_mine_comm c d s :
  Sentence_mark_mine c (Sentence_mark_mine d s) =
  Sentence_mark_mine d (Sentence_mark_mine c s).
Proof.
  destruct (decide (c = d)) as [->|Hcd]; [done|].
  unfold Sentence_mark_mine.
  repeat (case_bool_decide; simpl in * ); try done; try (exfalso; set_solver).
  f_equal; apply leibniz_equiv; set_solver.
Qed.

Lemma mark_safe_comm c d a :
  mark_safe c (mark_safe d a) = mark_safe d (mark_safe c a).
Proof.
  unfold mark_safe; simpl. f_equal.
  - apply leibniz_equiv. set_solver.
  - rewrite <- !list_fmap_compose. apply list_fmap_ext.
    intros _ s _. apply Sentence_mark_safe_comm.
Qed.

Lemma mark_mine_comm c d a :
  mark_mine c (mark_mine d a) = mark_mine d (mark_mine c a).
Proof.
  unfold mark_mine; simpl. f_equal.
  - apply try_remove_comm.
  - apply leibniz_equiv. set_solver.
  - rewrite <- !list_fmap_compose. apply list_fmap_ext.
    intros _ s _. apply Sentence_mark_mine_comm.
Qed.

(** A loop that applies commuting updates reaches the same state in
    whatever order it visits the elements. *)
Lemma foldl_commuting (f : cell → AI → AI) (l1 l2 : list cell) :
  (∀ c d a, f c (f d a) = f d (f c a)) →
  l1 ≡ₚ l2 → ∀ a, foldl (λ st i, f i st) a l1 = foldl (λ st i, f i st) a l2.
Proof.
  intros Hf. induction 1 as [|x l1 l2 _ IH|x y l|l1 l2 l3 _ IH1 _ IH2];
    intros a; simpl.
  - done.
  - apply IH.
  - by rewrite Hf.
  - by rewrite IH1.
Qed.

Lemma for_each_mark_safe_any_order l s a :
  l ≡ₚ elements s → foldl (λ st i, mark_safe i st) a l = for_each mark_safe s a.
Proof. intros Hp. apply foldl_commuting; [apply mark_safe_comm|done]. Qed.

Lemma for_each_mark_mine_any_order l s a :
  l ≡ₚ elements s → foldl (λ st i, mark_mine i st) a l = for_each mark_mine s a.
Proof. intros Hp. apply foldl_commuting; [apply mark_mine_comm|done]. Qed.

Lemma mark_safe_idemp c a : mark_safe c (mark_safe c a) = mark_safe c a.
Proof.
  unfold mark_safe; simpl. f_equal.
  - apply leibniz_equiv. set_solver.
  - rewrite <- list_fmap_compose. apply list_fmap_ext.
    intros _ s _. apply Sentence_mark_safe_idemp.
Qed.

Lemma knowledge_mark_mine_idemp c a :
  knowledge (mark_mine c (mark_mine c a)) = knowledge (mark_mine c a).
Proof.
  unfold mark_mine; simpl.
  rewrite <- list_fmap_compose. apply list_fmap_ext.
  intros _ s _. apply Sentence_mark_mine_idemp.
Qed.

(** With a duplicate-free list of potential moves (the constructor
    builds one, and removals keep it so) the whole agent is unchanged by
    the second call. *)
Lemma mark_mine_idemp_NoDup c a :
  NoDup (potential_moves a) → mark_mine c (mark_mine c a) = mark_mine c a.
Proof.
  intros Hnd.
  pose proof (knowledge_mark_mine_idemp c a) as Hk.
  unfold mark_mine in *; simpl in *. f_equal; [| |done].
  - apply try_remove_absent. by apply try_remove_gone.
  - apply leibniz_equiv. set_solver.
Qed.

(** The list of potential moves is the one component that a second
    [mark_mine] can change, and only when it holds the cell twice:
    [list.remove] drops one occurrence per call. *)
Lemma mark_mine_twice_with_duplicate :
  potential_moves
    (mark_mine (0, 0) (mark_mine (0, 0) (set_potential_moves [(0, 0); (0, 0)] (new_AI 1 1))))
  ≠ potential_moves
      (mark_mine (0, 0) (set_potential_moves [(0, 0); (0, 0)] (new_AI 1 1))).
Proof. vm_compute. discriminate. Qed.

(** C9.  Calling [mark_mine(c)] a second time changes none of [mines],
    [safes], [moves_made] and the sentences of the knowledge base
    (their cells, counts and cached sets); calling [mark_safe(c)] a
    second time changes nothing at all. *)
Theorem mark_twice_same_as_once (c : cell) (a : AI) :
  (mines (mark_mine c (mark_mine c a)) = mines (mark_mine c a) ∧
   safes (mark_mine c (mark_mine c a)) = safes (mark_mine c a) ∧
   moves_made (mark_mine c (mark_mine c a)) = moves_made (mark_mine c a) ∧
   knowledge (mark_mine c (mark_mine c a)) = knowledge (mark_mine c a)) ∧
  mark_safe c (mark_safe c a) = mark_safe c a.
Proof.
  split; [|apply mark_safe_idemp].
  split; [|split; [done|split; [done|apply knowledge_mark_mine_idemp]]].
  simpl. apply leibniz_equiv. set_solver.
Qed.

(** ** add_knowledge: the sentence it builds *)

Lemma elem_of_block (t c : cell) :
  t ∈ block c ↔ (c.1 - 1 ≤ t.1 ≤ c.1 + 1) ∧ (c.2 - 1 ≤ t.2 ≤ c.2 + 1).
Proof.
  unfold block. rewrite list_elem_of_bind. split.
  - intros (i & Hj & Hi). apply list_elem_of_bind in Hj as (j & Ht & Hj).
    apply list_elem_of_singleton in Ht as ->.
    apply elem_of_seqZ in Hi, Hj. simpl. lia.
  - intros [Hi Hj]. destruct t as [i j]; cbn [fst snd] in *.
    exists i. split; [|apply elem_of_seqZ; lia].
    apply list_elem_of_bind. exists j.
    split; [by apply list_elem_of_singleton|apply elem_of_seqZ; lia].
Qed.

(** The cells of the new sentence: the neighbours of the played cell,
    wherever they lie, that are in none of the three sets. *)
Lemma elem_of_fresh_neighbours (t c : cell) (a : AI) :
  t ∈ fresh_neighbours c a ↔
    t ∈ block c ∧ t ≠ c ∧ (t ∉ moves_made a) ∧ (t ∉ safes a) ∧ (t ∉ mines a).
Proof.
  unfold fresh_neighbours. rewrite elem_of_list_to_set, list_elem_of_filter.
  tauto.
Qed.

Lemma knowledge_add_knowledge_start c n a :
  knowledge (add_knowledge_start c n a) =
    (discard_cell c <$> (Sentence_mark_safe c <$> knowledge a)) ++
    [new_Sentence
       (fresh_neighbours c
          (set_safes (safes a ∪ {[ c ]}) (set_moves_made (moves_made a ∪ {[ c ]}) a)))
       n].
Proof.
  unfold add_knowledge_start; simpl. done.
Qed.

Lemma length_add_knowledge_start c n a :
  length (knowledge (add_knowledge_start c n a)) = S (length (knowledge a)).
Proof.
  rewrite knowledge_add_knowledge_start, length_app, !length_fmap; simpl. lia.
Qed.

Lemma new_sentence_spec c n a :
  ∃ ns, knowledge (add_knowledge_start c n a) !! length (knowledge a) = Some ns ∧
        count ns = n ∧
        ∀ t, t ∈ cells ns ↔
             t ∈ block c ∧ t ≠ c ∧ (t ∉ moves_made a) ∧ (t ∉ safes a) ∧ (t ∉ mines a).
Proof.
  rewrite knowledge_add_knowledge_start. eexists. split.
  - rewrite lookup_app_r; rewrite !length_fmap; [|done].
    by rewrite Nat.sub_diag.
  - split; [done|]. intros t. simpl. rewrite elem_of_fresh_neighbours. simpl.
    set_solver.
Qed.

(** C7.  On a fresh 8 x 8 agent, [add_knowledge((0,0), 0)] appends a
    sentence over all eight neighbours of the corner, among them
    [(-1,-1)], which is outside the board: the source never compares
    the neighbours with [height] and [width]. *)
Theorem new_sentence_has_cells_off_the_board :
  ∃ ns, last (knowledge (add_knowledge_start (0, 0) 0 (new_AI 8 8))) = Some ns ∧
        count ns = 0 ∧
        size (cells ns) = 8%nat ∧
        (-1, -1) ∈ cells ns ∧
        ¬ (0 ≤ (-1, -1).1 < height (new_AI 8 8)).
Proof.
  eexists. split; [by vm_compute|]. split; [done|]. split; [by vm_compute|].
  split; [|simpl; lia].
  apply (bool_decide_unpack _). by vm_compute.
Qed.

(** ** add_knowledge: the loop *)

Lemma length_kn_cells a : length (kn_cells a) = length (knowledge a).
Proof. apply length_fmap. Qed.

Lemma kn_cells_set_knowledge k a : kn_cells (set_knowledge k a) = cells <$> k.
Proof. done. Qed.

Lemma kn_cells_mark_safe c a :
  kn_cells (mark_safe c a) = (λ X, X ∖ {[ c ]}) <$> kn_cells a.
Proof.
  unfold kn_cells, mark_safe; simpl. rewrite <- !list_fmap_compose.
  apply list_fmap_ext. intros _ s _. apply cells_Sentence_mark_safe.
Qed.

Lemma kn_cells_mark_mine c a :
  kn_cells (mark_mine c a) = (λ X, X ∖ {[ c ]}) <$> kn_cells a.
Proof.
  unfold kn_cells, mark_mine; simpl. rewrite <- !list_fmap_compose.
  apply list_fmap_ext. intros _ s _. apply cells_Sentence_mark_mine.
Qed.

Lemma kn_cells_foldl (f : cell → AI → AI) (l : list cell) :
  (∀ c a, kn_cells (f c a) = (λ X, X ∖ {[ c ]}) <$> kn_cells a) →
  ∀ a, kn_cells (foldl (λ st i, f i st) a l) =
       (λ X, X ∖ list_to_set l) <$> kn_cells a.
Proof.
  intros Hf. induction l as [|x l IH]; intros a; simpl.
  - rewrite <- (list_fmap_id (kn_cells a)) at 1. apply list_fmap_ext.
    intros _ X _. apply leibniz_equiv. set_solver.
  - rewrite IH, Hf, <- list_fmap_compose. apply list_fmap_ext.
    intros _ X _. apply leibniz_equiv. simpl. set_solver.
Qed.

Lemma kn_cells_for_each_mark_safe s a :
  kn_cells (for_each mark_safe s a) = (λ X, X ∖ s) <$> kn_cells a.
Proof.
  unfold for_each. rewrite (kn_cells_foldl mark_safe) by apply kn_cells_mark_safe.
  by rewrite list_to_set_elements_L.
Qed.

Lemma kn_cells_for_each_mark_mine s a :
  kn_cells (for_each mark_mine s a) = (λ X, X ∖ s) <$> kn_cells a.
Proof.
  unfold for_each. rewrite (kn_cells_foldl mark_mine) by apply kn_cells_mark_mine.
  by rewrite list_to_set_elements_L.
Qed.

(** The shape of the knowledge base after one execution of the loop
    body: at most one sentence is appended, and some set [Y] of cells
    is removed from every sentence.  When either subset test succeeds a
    sentence IS appended, and in the first branch [Y] covers the cells
    shared with [new_sentence]. *)
Lemma loop_body_shape ns s a :
  ∃ Y ext,
    kn_cells (loop_body ns s a) = (λ X, X ∖ Y) <$> (kn_cells a ++ ext) ∧
    (cells s ⊆ cells ns → cells ns ∩ cells s ⊆ Y) ∧
    (cells s ⊆ cells ns ∨ cells ns ⊆ cells s → length ext = 1%nat).
Proof.
  unfold loop_body.
  case_bool_decide as H1; [|case_bool_decide as H2].
  - case_bool_decide as H3.
    + exists ((cells ns ∩ cells s) ∪ (cells ns ∖ cells s)),
             [cells ns ∖ cells s].
      split; [|split; [set_solver|done]].
      rewrite kn_cells_for_each_mark_mine, kn_cells_for_each_mark_safe,
        kn_cells_set_knowledge, fmap_app, <- list_fmap_compose.
      apply list_fmap_ext. intros _ X _. apply leibniz_equiv. simpl. set_solver.
    + exists (cells ns ∩ cells s), [cells ns ∖ cells s].
      split; [|split; [set_solver|done]].
      by rewrite kn_cells_for_each_mark_safe, kn_cells_set_knowledge, fmap_app.
  - exists (if bool_decide (Z.of_nat (size (cells s ∖ cells ns)) = count s - count ns)
            then cells s ∖ cells ns else ∅),
           [cells s ∖ cells ns].
    split; [|split; [done|done]].
    case_bool_decide.
    + by rewrite kn_cells_for_each_mark_mine, kn_cells_set_knowledge, fmap_app.
    + rewrite kn_cells_set_knowledge, fmap_app.
      rewrite <- (list_fmap_id (_ ++ _)) at 1. apply list_fmap_ext.
      intros _ X _. apply leibniz_equiv. simpl. set_solver.
  - exists ∅, []. split; [|split; [done|tauto]].
    rewrite app_nil_r. rewrite <- (list_fmap_id (kn_cells a)) at 1.
    apply list_fmap_ext. intros _ X _. apply leibniz_equiv. simpl. set_solver.
Qed.

Lemma loop_step_None n i a :
  (n < length (knowledge a))%nat →
  loop_step n (i, a) = None ↔ (length (knowledge a) ≤ i)%nat.
Proof.
  intros Hn. unfold loop_step; simpl.
  destruct (lookup_lt_is_Some_2 _ _ Hn) as [ns ->].
  destruct (knowledge a !! i) as [s|] eqn:Hi.
  - apply lookup_lt_Some in Hi. split; [done|lia].
  - apply lookup_ge_None in Hi. done.
Qed.

Lemma keeps_running_step n p :
  keeps_running n p →
  ∃ p', loop_step n p = Some p' ∧ keeps_running n p'.
Proof.
  destruct p as [i a]. intros [Hn Hi]; simpl in *.
  assert (i < length (kn_cells a))%nat as Hlt by (destruct Hi; lia).
  rewrite length_kn_cells in Hn, Hlt.
  destruct (lookup_lt_is_Some_2 _ _ Hn) as [ns Hns].
  destruct (lookup_lt_is_Some_2 _ _ Hlt) as [s Hs].
  unfold loop_step; simpl. rewrite Hns, Hs.
  eexists; split; [done|].
  destruct (loop_body_shape ns s a) as (Y & ext & Hk & HY & Hext).
  assert (kn_cells a !! n = Some (cells ns)) as Hcn.
  { unfold kn_cells. by rewrite list_lookup_fmap, Hns. }
  assert (kn_cells (loop_body ns s a) !! n = Some (cells ns ∖ Y)) as Hn'.
  { rewrite Hk, list_lookup_fmap, lookup_app_l, Hcn; [done|].
    by rewrite length_kn_cells. }
  assert (length (kn_cells (loop_body ns s a)) =
          (length (knowledge a) + length ext)%nat) as Hlen.
  { by rewrite Hk, length_fmap, length_app, length_kn_cells. }
  unfold keeps_running; simpl. rewrite Hlen, Hn'. split; [lia|].
  destruct Hi as [Hi|[He Hi]].
  - destruct (decide (i = n)) as [->|]; [|left; lia].
    right. assert (s = ns) as -> by congruence.
    rewrite Hext by (left; done). split; [|lia].
    f_equal. apply leibniz_equiv.
    assert (cells ns ∩ cells ns ⊆ Y) by (by apply HY). set_solver.
  - right. assert (cells ns = ∅) as Hempty by congruence.
    rewrite Hext by (right; rewrite Hempty; set_solver). split; [|lia].
    f_equal. apply leibniz_equiv. rewrite Hempty. set_solver.
Qed.

Lemma keeps_running_start c n a :
  keeps_running (length (knowledge a)) (0%nat, add_knowledge_start c n a).
Proof.
  unfold keeps_running; simpl.
  rewrite length_kn_cells, length_add_knowledge_start. split; [lia|left; lia].
Qed.

Lemma keeps_running_loop_after k n p :
  keeps_running n p → keeps_running n (loop_after k n p).
Proof.
  revert p. induction k as [|k IH]; intros p Hp; [done|]; simpl.
  destruct (keeps_running_step n p Hp) as (p' & -> & Hp'). by apply IH.
Qed.

Lemma run_loop_keeps_running fuel n p :
  keeps_running n p → run_loop fuel n p = None.
Proof.
  revert p. induction fuel as [|fuel IH]; intros p Hp;
    destruct (keeps_running_step n p Hp) as (p' & Hstep & Hp'); simpl;
    rewrite Hstep; [done|by apply IH].
Qed.

(** At no point of the loop is the iterator exhausted. *)
Lemma add_knowledge_always_steps k c n a :
  is_Some (loop_step (length (knowledge a))
             (loop_after k (length (knowledge a))
                (0%nat, add_knowledge_start c n a))).
Proof.
  destruct (keeps_running_step (length (knowledge a))
              (loop_after k (length (knowledge a)) (0%nat, add_knowledge_start c n a)))
    as (p' & -> & _); [|done].
  apply keeps_running_loop_after, keeps_running_start.
Qed.

(** C1.  For every agent, cell and count, and for every bound on the
    number of iterations, the loop of [add_knowledge] is still running
    when the bound is reached: the call does not return. *)
Theorem add_knowledge_never_returns (fuel : nat) (c : cell) (n : Z) (a : AI) :
  add_knowledge fuel c n a = None.
Proof. apply run_loop_keeps_running, keeps_running_start. Qed.

(** The loop does stop where Python's would: when the index has reached
    the end of the list. *)
Lemma run_loop_exhausted fuel n i a :
  (n < length (knowledge a))%nat → (length (knowledge a) ≤ i)%nat →
  run_loop fuel n (i, a) = Some a.
Proof.
  intros Hn Hi. apply (loop_step_None n i a Hn) in Hi.
  destruct fuel; simpl; by rewrite Hi.
Qed.

Lemma loop_after_stuck k n p : loop_step n p = None → loop_after k n p = p.
Proof. intros H. destruct k; simpl; [done|by rewrite H]. Qed.

Lemma loop_after_add j k n p :
  loop_after (j + k) n p = loop_after k n (loop_after j n p).
Proof.
  revert p. induction j as [|j IH]; intros p; simpl; [done|].
  destruct (loop_step n p) eqn:Hs; [apply IH|].
  by rewrite loop_after_stuck.
Qed.

Lemma loop_body_empty ns s a :
  cells ns = ∅ → cells s = ∅ →
  loop_body ns s a =
    set_knowledge (knowledge a ++ [new_Sentence ∅ (count ns - count s)]) a.
Proof.
  intros Hns Hs. unfold loop_body. rewrite Hns, Hs.
  rewrite bool_decide_eq_true_2 by done.
  assert ((∅ : gset cell) ∖ ∅ = ∅) as -> by (apply leibniz_equiv; set_solver).
  assert ((∅ : gset cell) ∩ ∅ = ∅) as -> by (apply leibniz_equiv; set_solver).
  unfold for_each. rewrite elements_empty; simpl. by case_bool_decide.
Qed.

Lemma tail_ready_step n p :
  tail_ready n p = true →
  ∃ x, cells x = ∅ ∧
       loop_step n p = Some (S p.1, set_knowledge (knowledge p.2 ++ [x]) p.2) ∧
       tail_ready n (S p.1, set_knowledge (knowledge p.2 ++ [x]) p.2) = true.
Proof.
  destruct p as [i a]. unfold tail_ready; simpl.
  rewrite !andb_true_iff, !bool_decide_eq_true, forallb_forall.
  intros [[Hi Hn] Hall].
  unfold kn_cells in Hn. rewrite list_lookup_fmap in Hn.
  destruct (knowledge a !! n) as [ns|] eqn:Hns; [|done].
  simpl in Hn. assert (cells ns = ∅) as Hns0 by congruence.
  destruct (lookup_lt_is_Some_2 _ _ Hi) as [s Hs].
  assert (∀ j y, (i ≤ j)%nat → knowledge a !! j = Some y → cells y = ∅) as Hall'.
  { intros j y Hj Hy.
    assert (In y (drop i (knowledge a))) as Hin.
    { apply list_elem_of_In, list_elem_of_lookup. exists (j - i)%nat.
      rewrite lookup_drop. by replace (i + (j - i))%nat with j by lia. }
    apply Hall in Hin. by apply bool_decide_eq_true in Hin. }
  assert (cells s = ∅) as Hs0 by (by apply (Hall' i)).
  exists (new_Sentence ∅ (count ns - count s)). split; [done|]. split.
  - unfold loop_step; simpl. by rewrite Hs, Hns, loop_body_empty.
  - rewrite !andb_true_iff, !bool_decide_eq_true, forallb_forall. simpl.
    split; [split|].
    + rewrite length_app; simpl. lia.
    + unfold kn_cells; simpl. rewrite list_lookup_fmap, lookup_app_l.
      * by rewrite Hns; simpl; rewrite Hns0.
      * by apply lookup_lt_Some in Hns.
    + intros y Hin. apply bool_decide_eq_true.
      apply list_elem_of_In, list_elem_of_lookup in Hin as [j Hj].
      rewrite lookup_drop in Hj. apply lookup_app_Some in Hj as [Hj|[_ Hj]].
      * apply (Hall' (S i + j)%nat); [lia|done].
      * destruct (_ - _)%nat; simpl in Hj; [|done]. by inversion Hj.
Qed.

Lemma loop_after_tail k n p :
  tail_ready n p = true →
  ∃ ext, Forall (λ s, cells s = ∅) ext ∧
         loop_after k n p =
           ((p.1 + k)%nat, set_knowledge (knowledge p.2 ++ ext) p.2).
Proof.
  revert p. induction k as [|k IH]; intros p Hp.
  - exists []. split; [done|]. simpl. rewrite app_nil_r, Nat.add_0_r.
    by destruct p as [i []].
  - destruct (tail_ready_step n p Hp) as (x & Hx & Hstep & Hp').
    destruct (IH _ Hp') as (ext & Hext & Hk).
    exists (x :: ext). split; [by constructor|].
    simpl. rewrite Hstep, Hk. simpl. f_equal; [lia|].
    unfold set_knowledge; simpl. by rewrite <- app_assoc.
Qed.

Lemma during_add_knowledge_tail j k c n a :
  resting j c n a = true →
  ∃ ext, Forall (λ s, cells s = ∅) ext ∧
    during_add_knowledge (j + k) c n a =
      set_knowledge (knowledge (during_add_knowledge j c n a) ++ ext)
                    (during_add_knowledge j c n a).
Proof.
  intros Hr. unfold during_add_knowledge. rewrite loop_after_add.
  destruct (loop_after_tail k _ _ Hr) as (ext & Hext & ->). by exists ext.
Qed.

Ltac frame_of_tail :=
  let Hr := fresh in
  let ext := fresh in
  intros Hr;
  match goal with
  | |- context [during_add_knowledge (?j + ?k) ?c ?n ?a] =>
      destruct (during_add_knowledge_tail j k c n a Hr) as (ext & _ & ->)
  end;
  reflexivity.

Lemma safes_during_tail j k c n a :
  resting j c n a = true →
  safes (during_add_knowledge (j + k) c n a) = safes (during_add_knowledge j c n a).
Proof. frame_of_tail. Qed.

Lemma mines_during_tail j k c n a :
  resting j c n a = true →
  mines (during_add_knowledge (j + k) c n a) = mines (during_add_knowledge j c n a).
Proof. frame_of_tail. Qed.

Lemma moves_made_during_tail j k c n a :
  resting j c n a = true →
  moves_made (during_add_knowledge (j + k) c n a) =
  moves_made (during_add_knowledge j c n a).
Proof. frame_of_tail. Qed.

Lemma potential_moves_during_tail j k c n a :
  resting j c n a = true →
  potential_moves (during_add_knowledge (j + k) c n a) =
  potential_moves (during_add_knowledge j c n a).
Proof. frame_of_tail. Qed.

Lemma height_during_tail j k c n a :
  resting j c n a = true →
  height (during_add_knowledge (j + k) c n a) = height (during_add_knowledge j c n a).
Proof. frame_of_tail. Qed.

Lemma width_during_tail j k c n a :
  resting j c n a = true →
  width (during_add_knowledge (j + k) c n a) = width (during_add_knowledge j c n a).
Proof. frame_of_tail. Qed.

Lemma knowledge_during_tail j k c n a :
  resting j c n a = true →
  ∃ ext, Forall (λ s, cells s = ∅) ext ∧
    knowledge (during_add_knowledge (j + k) c n a) =
    knowledge (during_add_knowledge j c n a) ++ ext.
Proof.
  intros Hr. destruct (during_add_knowledge_tail j k c n a Hr) as (ext & Hext & ->).
  by exists ext.
Qed.

Lemma lookup_knowledge_during_tail j k c n a i s :
  resting j c n a = true →
  knowledge (during_add_knowledge j c n a) !! i = Some s →
  knowledge (during_add_knowledge (j + k) c n a) !! i = Some s.
Proof.
  intros Hr Hi. destruct (knowledge_during_tail j k c n a Hr) as (ext & _ & ->).
  by apply lookup_app_l_Some.
Qed.

Lemma no_sentence_about_during_tail j k c n a (t : cell) :
  resting j c n a = true →
  Forall (λ s, cells s ≠ {[ t ]}) (knowledge (during_add_knowledge j c n a)) →
  Forall (λ s, cells s ≠ {[ t ]}) (knowledge (during_add_knowledge (j + k) c n a)).
Proof.
  intros Hr Hj. destruct (knowledge_during_tail j k c n a Hr) as (ext & Hext & ->).
  apply Forall_app. split; [done|].
  eapply Forall_impl; [exact Hext|]. simpl. intros s -> H.
  assert (t ∈ (∅ : gset cell)) by (rewrite H; set_solver).
  set_solver.
Qed.

(** *** What the visit of [new_sentence] does to [safes] *)

Lemma safes_foldl_mark_safe (l : list cell) :
  ∀ a, safes (foldl (λ st i, mark_safe i st) a l) = safes a ∪ list_to_set l.
Proof.
  induction l as [|x l IH]; intros a; simpl.
  - apply leibniz_equiv. set_solver.
  - rewrite IH. simpl. apply leibniz_equiv. set_solver.
Qed.

Lemma safes_for_each_mark_safe s a :
  safes (for_each mark_safe s a) = safes a ∪ s.
Proof. unfold for_each. by rewrite safes_foldl_mark_safe, list_to_set_elements_L. Qed.

Lemma safes_foldl_mark_mine (l : list cell) :
  ∀ a, safes (foldl (λ st i, mark_mine i st) a l) = safes a.
Proof. induction l as [|x l IH]; intros a; simpl; [done|by rewrite IH]. Qed.

Lemma safes_for_each_mark_mine s a : safes (for_each mark_mine s a) = safes a.
Proof. apply safes_foldl_mark_mine. Qed.

(** Visiting [new_sentence] itself puts all its cells into [safes]: the
    count plays no part. *)
Lemma safes_loop_body_self ns a :
  safes (loop_body ns ns a) = safes a ∪ cells ns.
Proof.
  unfold loop_body. rewrite bool_decide_eq_true_2 by done.
  case_bool_decide.
  - rewrite safes_for_each_mark_mine, safes_for_each_mark_safe. simpl.
    apply leibniz_equiv. set_solver.
  - rewrite safes_for_each_mark_safe. simpl. apply leibniz_equiv. set_solver.
Qed.

(** On an agent with an empty knowledge base (every agent on which
    [add_knowledge] is called for the first time) the first iteration
    of the loop marks every neighbour of the played cell safe that was
    not known to be a mine and had not been played, for every count. *)
Lemma first_call_marks_neighbours_safe (c : cell) (n : Z) (a : AI) (t : cell) :
  knowledge a = [] →
  t ∈ block c → t ≠ c → t ∉ moves_made a → t ∉ mines a →
  t ∈ safes (during_add_knowledge 1 c n a).
Proof.
  intros Hk Hb Hc Hm Hmi. unfold during_add_knowledge.
  destruct (new_sentence_spec c n a) as (ns & Hns & _ & Hcells).
  rewrite Hk in *. simpl length in *.
  unfold loop_after, loop_step. cbn [fst snd]. rewrite Hns. cbn [snd].
  rewrite safes_loop_body_self.
  destruct (decide (t ∈ safes a)) as [Hs|Hs].
  - apply elem_of_union_l. unfold add_knowledge_start. simpl. set_solver.
  - apply elem_of_union_r. by apply Hcells.
Qed.

(** ** add_knowledge on concrete boards *)

Ltac decide_by_computation := apply (bool_decide_unpack _); vm_compute; reflexivity.

(** C2.  The true layout has one mine, at [(0,1)].  The safe cell
    [(1,1)] is revealed with its true count 1.  From the first
    iteration of the loop of [add_knowledge((1,1), 1)] on, the mine
    [(0,1)] is in the agent's [safes]. *)
Theorem mine_enters_safes :
  is_mine one_mine_board (1, 1) = Some false ∧
  nearby_mines one_mine_board (1, 1) = Some 1 ∧
  is_mine one_mine_board (0, 1) = Some true ∧
  ∀ k, (0, 1) ∈ safes (during_add_knowledge (S k) (1, 1) 1 (new_AI 3 3)).
Proof.
  split; [vm_compute; reflexivity|].
  split; [vm_compute; reflexivity|].
  split; [vm_compute; reflexivity|].
  intros k. change (S k) with (1 + k)%nat.
  rewrite safes_during_tail by (vm_compute; reflexivity).
  decide_by_computation.
Qed.

(** C3.  In the same call, from the first iteration on, the first
    sentence of the knowledge base has no cells and count 1, so its
    count exceeds the number of its cells. *)
Theorem count_exceeds_cells (k : nat) :
  ∃ ns, knowledge (during_add_knowledge (S k) (1, 1) 1 (new_AI 3 3)) !! 0%nat = Some ns ∧
        cells ns = ∅ ∧ count ns = 1 ∧
        ¬ (0 ≤ count ns ≤ Z.of_nat (size (cells ns))).
Proof.
  exists (mkSentence ∅ 1 ∅ {[ PNone ]}). split.
  - change (S k) with (1 + k)%nat.
    apply lookup_knowledge_during_tail; vm_compute; reflexivity.
  - split; [done|]. split; [done|]. cbn [count cells]. rewrite size_empty. lia.
Qed.

(** C6.  The knowledge base holds [{A,B,C} = 1] and [{A,B} = 1].  A call
    [add_knowledge((5,5), 2)], whose new sentence shares no cell with
    them, never compares the two with each other: at no iteration of
    its loop is there a sentence about [{C}] alone in the knowledge
    base, and [C] is never in [safes]. *)
Theorem stored_pair_never_resolved :
  (∃ A B, knowledge two_sentence_agent = [B; A] ∧ cells A ⊂ cells B ∧
          cells B ∖ cells A = {[ (0, 2) ]} ∧ count B - count A = 0) ∧
  ∀ k,
    Forall (λ s, cells s ≠ {[ (0, 2) ]})
           (knowledge (during_add_knowledge k (5, 5) 2 two_sentence_agent)) ∧
    (0, 2) ∉ safes (during_add_knowledge k (5, 5) 2 two_sentence_agent).
Proof.
  split.
  { exists (new_Sentence {[ (0, 0); (0, 1) ]} 1),
           (new_Sentence {[ (0, 0); (0, 1); (0, 2) ]} 1).
    split; [reflexivity|]. split; [|split; [|reflexivity]].
    - decide_by_computation.
    - vm_compute; reflexivity. }
  intros k.
  destruct k as [|[|[|k]]];
    [split; decide_by_computation | split; decide_by_computation
    | split; decide_by_computation | ].
  change (S (S (S k))) with (3 + k)%nat. split.
  - apply no_sentence_about_during_tail; [vm_compute; reflexivity|].
    decide_by_computation.
  - rewrite safes_during_tail by (vm_compute; reflexivity).
    decide_by_computation.
Qed.

Lemma make_random_move_single (r : nat) (a : AI) (c : cell) :
  potential_moves a = [c] →
  make_random_move r a = Ret (c, set_potential_moves [] a).
Proof.
  intros Hp. unfold make_random_move. rewrite Hp. simpl length.
  rewrite Nat.mod_1_r. simpl. rewrite try_remove_cons.
  by rewrite decide_True.
Qed.

(** C8.  A 1 x 1 board whose only cell has been played:
    [add_knowledge((0,0), 0)] records the move in [moves_made] and
    leaves [potential_moves] alone.  At every point from there on every
    cell of the board is in [moves_made], so no candidate remains, yet
    [make_random_move] returns the played cell [(0,0)] instead of
    failing. *)
Theorem random_move_returns_played_cell (k r : nat) :
  Forall (λ c, c ∈ moves_made (during_add_knowledge k (0, 0) 0 (new_AI 1 1)) ∨
               c ∈ mines (during_add_knowledge k (0, 0) 0 (new_AI 1 1)))
         (all_cells (height (during_add_knowledge k (0, 0) 0 (new_AI 1 1)))
                    (width (during_add_knowledge k (0, 0) 0 (new_AI 1 1)))) ∧
  (0, 0) ∈ moves_made (during_add_knowledge k (0, 0) 0 (new_AI 1 1)) ∧
  make_random_move r (during_add_knowledge k (0, 0) 0 (new_AI 1 1)) =
    Ret ((0, 0), set_potential_moves [] (during_add_knowledge k (0, 0) 0 (new_AI 1 1))).
Proof.
  destruct k as [|k].
  - split; [decide_by_computation|]. split; [decide_by_computation|].
    apply make_random_move_single. vm_compute; reflexivity.
  - change (S k) with (1 + k)%nat.
    rewrite height_during_tail, width_during_tail, moves_made_during_tail,
      mines_during_tail by (vm_compute; reflexivity).
    split; [decide_by_computation|]. split; [decide_by_computation|].
    apply make_random_move_single.
    rewrite potential_moves_during_tail by (vm_compute; reflexivity).
    vm_compute; reflexivity.
Qed.

(** ** The move selectors *)

Lemma NoDup_all_cells h w : NoDup (all_cells h w).
Proof.
  unfold all_cells. apply NoDup_bind.
  - intros i1 i2 [x y] _ _ H1 H2.
    apply list_elem_of_bind in H1 as (j1 & H1 & _).
    apply list_elem_of_bind in H2 as (j2 & H2 & _).
    apply list_elem_of_singleton in H1, H2. congruence.
  - intros i _. apply NoDup_bind.
    + intros j1 j2 [x y] _ _ H1 H2.
      apply list_elem_of_singleton in H1, H2. congruence.
    + intros j _. apply NoDup_singleton.
    + apply NoDup_seqZ.
  - apply NoDup_seqZ.
Qed.

(** What every call does to [potential_moves]: the list stays free of
    duplicates and only shrinks, a returned cell is gone from it, and a
    cell returned by [make_random_move] was in it. *)
Lemma do_call_potential_moves set_iter q a r a' :
  do_call set_iter q a = (r, a') →
  NoDup (potential_moves a) →
  NoDup (potential_moves a') ∧
  potential_moves a' ⊆ potential_moves a ∧
  (∀ k c, r = Some (k, c) → c ∉ potential_moves a') ∧
  (∀ c, r = Some (ByRandom, c) → c ∈ potential_moves a).
Proof.
  intros Hq Hnd. destruct q as [|n|c|c]; simpl in Hq.
  - unfold make_safe_move in Hq.
    destruct (find _ _) as [c|]; inversion Hq; subst; simpl.
    + split; [by apply try_remove_NoDup|].
      split; [apply try_remove_sublist|]. split; [|done].
      intros k c' [= _ <-]. by apply try_remove_gone.
    + done.
  - unfold make_random_move in Hq.
    destruct (potential_moves a !! _) as [c|] eqn:Hc; inversion Hq; subst; simpl.
    + split; [by apply try_remove_NoDup|].
      split; [apply try_remove_sublist|]. split.
      * intros k c' [= _ <-]. by apply try_remove_gone.
      * intros c' [= <-]. by eapply list_elem_of_lookup_2.
    + done.
  - inversion Hq; subst; simpl.
    split; [by apply try_remove_NoDup|].
    split; [apply try_remove_sublist|]. done.
  - inversion Hq; subst; simpl. done.
Qed.

Lemma returned_random_fresh set_iter qs :
  ∀ a (pre : list cell),
    NoDup (potential_moves a) →
    (∀ x, x ∈ pre → x ∉ potential_moves a) →
    ∀ l1 c l2, returned set_iter qs a = l1 ++ (ByRandom, c) :: l2 →
               (c ∉ pre) ∧ (c ∉ l1.*2).
Proof.
  induction qs as [|q qs IH]; intros a pre Hnd Hpre l1 c l2 Heq; simpl in Heq.
  - by destruct l1.
  - destruct (do_call set_iter q a) as [r a'] eqn:Hq.
    destruct (do_call_potential_moves _ _ _ _ _ Hq Hnd) as (Hnd' & Hsub & Hgone & Hin).
    destruct r as [[kd c0]|].
    + destruct l1 as [|e l1]; simpl in Heq.
      * simplify_eq. split; [|set_solver].
        intros Hc. by apply (Hpre c), Hin.
      * injection Heq as He Heq. subst e.
        assert (∀ x, x ∈ c0 :: pre → x ∉ potential_moves a') as Hpre'.
        { intros x [->|Hx]%elem_of_cons; [by eapply Hgone|].
          intros Hx'. by apply (Hpre x), Hsub. }
        destruct (IH a' (c0 :: pre) Hnd' Hpre' l1 c l2 Heq) as [H1 H2].
        split; [set_solver|]. simpl. set_solver.
    + apply (IH a' pre Hnd') with (l2 := l2); [|done].
      intros x Hx Hx'. by apply (Hpre x), Hsub.
Qed.

(** [make_safe_move] changes neither [safes] nor [moves_made], so the
    next call finds the same cell again, whatever the enumeration order
    of the set. *)
Lemma make_safe_move_again set_iter a c a' :
  make_safe_move set_iter a = (Some c, a') →
  ∃ a'', make_safe_move set_iter a' = (Some c, a'').
Proof.
  unfold make_safe_move.
  destruct (find _ _) as [c0|] eqn:Hf; intros [= <- <-]; simpl.
  rewrite Hf. eauto.
Qed.

(** C10, as stated, fails: on a fresh 1 x 1 agent whose cell [(0,0)] has
    been marked safe, two calls of [make_safe_move] in a row both
    return [(0,0)]. *)
Lemma safe_move_returns_cell_twice :
  returned elements [MarkSafe (0, 0); SafeMove; SafeMove] (new_AI 1 1) =
    [(BySafe, (0, 0)); (BySafe, (0, 0))] ∧
  ¬ NoDup (returned elements [MarkSafe (0, 0); SafeMove; SafeMove] (new_AI 1 1)).*2.
Proof.
  assert (returned elements [MarkSafe (0, 0); SafeMove; SafeMove] (new_AI 1 1) =
          [(BySafe, (0, 0)); (BySafe, (0, 0))]) as H by (vm_compute; reflexivity).
  split; [exact H|]. rewrite H. simpl. intros Hnd.
  apply NoDup_cons in Hnd as [Hn _]. apply Hn. left.
Qed.

(** C10, amended.  Starting from an agent whose list of potential moves
    has no duplicates, through any sequence of calls of
    [make_safe_move], [make_random_move], [mark_mine] and [mark_safe],
    a cell returned by [make_random_move] was never returned before by
    either selector. *)
Theorem random_move_never_repeats
    (set_iter : gset cell → list cell) (qs : list call) (a : AI) :
  NoDup (potential_moves a) →
  random_never_repeats (returned set_iter qs a).
Proof.
  intros Hnd l1 c l2 Heq.
  apply (returned_random_fresh set_iter qs a [] Hnd) with (l2 := l2); [|done].
  intros x Hx. by apply elem_of_nil in Hx.
Qed.

(** The amended C10 at a concrete run on a 1 x 2 board, in which
    [make_safe_move] repeats the cell that [make_random_move] returned. *)
Lemma random_move_never_repeats_witness :
  NoDup (potential_moves (new_AI 1 2)) ∧
  random_never_repeats
    (returned elements
       [MarkSafe (0, 0); RandomMove 0; SafeMove; RandomMove 0] (new_AI 1 2)).
Proof.
  split.
  - apply (bool_decide_unpack _). vm_compute. reflexivity.
  - apply (random_move_never_repeats elements
             [MarkSafe (0, 0); RandomMove 0; SafeMove; RandomMove 0] (new_AI 1 2)).
    apply (bool_decide_unpack _). vm_compute. reflexivity.
Defined.

(** * Further properties *)

(** ** Further properties of Sentence *)

Lemma size_remove_present (c : cell) (X : gset cell) :
  c ∈ X → size X = S (size (X ∖ {[ c ]})).
Proof.
  intros Hc.
  assert (X = {[ c ]} ∪ (X ∖ {[ c ]})) as HX.
  { apply leibniz_equiv. intros t. destruct (decide (t = c)); set_solver. }
  rewrite HX at 1. rewrite size_union by set_solver.
  by rewrite size_singleton.
Qed.

(** X1.  [Sentence.mark_mine] removes the cell and lowers the count
    together, so the number of cells minus the count is the same before
    and after the call.  [Sentence.mark_safe] removes the cell and keeps
    the count, so the number of cells drops by one exactly when the cell
    was present.  After either call the cell is gone. *)
Theorem Sentence_marks_account (c : cell) (s : Sentence) :
  Z.of_nat (size (cells (Sentence_mark_mine c s))) - count (Sentence_mark_mine c s)
    = Z.of_nat (size (cells s)) - count s ∧
  count (Sentence_mark_safe c s) = count s ∧
  size (cells s) =
    (size (cells (Sentence_mark_safe c s)) +
     (if bool_decide (c ∈ cells s) then 1 else 0))%nat ∧
  (c ∉ cells (Sentence_mark_mine c s)) ∧
  (c ∉ cells (Sentence_mark_safe c s)).
Proof.
  split; [|split; [|split; [|split]]].
  - unfold Sentence_mark_mine. case_bool_decide as Hc; [|done].
    cbn [cells count]. rewrite (size_remove_present c (cells s) Hc). lia.
  - unfold Sentence_mark_safe. by case_bool_decide.
  - unfold Sentence_mark_safe. case_bool_decide as Hc; cbn [cells]; [|lia].
    rewrite (size_remove_present c (cells s) Hc). lia.
  - rewrite cells_Sentence_mark_mine. set_solver.
  - rewrite cells_Sentence_mark_safe. set_solver.
Qed.

Lemma Sentence_mark_mine_safe_comm (c d : cell) (s : Sentence) :
  c ≠ d →
  Sentence_mark_mine c (Sentence_mark_safe d s) =
  Sentence_mark_safe d (Sentence_mark_mine c s).
Proof.
  intros Hcd. unfold Sentence_mark_mine, Sentence_mark_safe.
  repeat (case_bool_decide; simpl in * ); try done; try (exfalso; set_solver).
  f_equal; apply leibniz_equiv; set_solver.
Qed.

(** X2.  How the two marks of a sentence compose.  On different cells
    they commute.  On the same cell the first mark wins: once a cell has
    been marked safe, marking it as a mine no longer lowers the count,
    and once it has been marked as a mine, marking it safe changes
    nothing. *)
Theorem Sentence_marks_compose (c d : cell) (s : Sentence) :
  Sentence_mark_mine c (Sentence_mark_safe d s) =
    (if bool_decide (c = d) then Sentence_mark_safe d s
     else Sentence_mark_safe d (Sentence_mark_mine c s)) ∧
  Sentence_mark_safe c (Sentence_mark_mine d s) =
    (if bool_decide (c = d) then Sentence_mark_mine d s
     else Sentence_mark_mine d (Sentence_mark_safe c s)).
Proof.
  split; case_bool_decide as Hcd.
  - subst d. apply Sentence_mark_mine_absent.
    rewrite cells_Sentence_mark_safe. set_solver.
  - by apply Sentence_mark_mine_safe_comm.
  - subst d. apply Sentence_mark_safe_absent.
    rewrite cells_Sentence_mark_mine. set_solver.
  - symmetry. apply Sentence_mark_mine_safe_comm. congruence.
Qed.

Lemma Sentence_eqb_true (a b : Sentence) :
  Sentence_eqb a b = true ↔ cells a = cells b ∧ count a = count b.
Proof.
  unfold Sentence_eqb. by rewrite andb_true_iff, !bool_decide_eq_true.
Qed.

(** X3.  [Sentence.__eq__] looks at the cells and the count only, and
    every method respects it: from two equal sentences, [mark_mine],
    [mark_safe], [known_mines] and [known_safes] lead to equal
    sentences, whatever the two cached sets hold. *)
Theorem Sentence_eqb_respected (a b : Sentence) (c : cell) (f g : nat) :
  Sentence_eqb a b = true →
  Sentence_eqb (Sentence_mark_mine c a) (Sentence_mark_mine c b) = true ∧
  Sentence_eqb (Sentence_mark_safe c a) (Sentence_mark_safe c b) = true ∧
  Sentence_eqb (known_mines f a).1.2 (known_mines g b).1.2 = true ∧
  Sentence_eqb (known_safes f a).1.2 (known_safes g b).1.2 = true.
Proof.
  rewrite !Sentence_eqb_true. intros [Hc Hn].
  rewrite !cells_Sentence_mark_mine, !cells_Sentence_mark_safe, Hc.
  split; [|split; [|split]].
  - split; [done|]. unfold Sentence_mark_mine. rewrite Hc, Hn.
    by case_bool_decide.
  - split; [done|]. unfold Sentence_mark_safe. rewrite Hc, Hn.
    by case_bool_decide.
  - destruct (known_mines_keeps_cells f a) as [-> ->].
    by destruct (known_mines_keeps_cells g b) as [-> ->].
  - destruct (known_safes_keeps_cells f a) as [-> ->].
    by destruct (known_safes_keeps_cells g b) as [-> ->].
Qed.

(** X3 at two sentences that are equal for [__eq__] and differ in their
    cached set of mines. *)
Lemma Sentence_eqb_respected_witness :
  let a := new_Sentence {[ (0, 0) ]} 1 in
  let b := mkSentence {[ (0, 0) ]} 1 {[ PGen 0 ]} ∅ in
  Sentence_eqb a b = true ∧ a ≠ b ∧
  Sentence_eqb (Sentence_mark_mine (0, 0) a) (Sentence_mark_mine (0, 0) b) = true.
Proof.
  split; [vm_compute; reflexivity|]. split.
  - intros H. apply (f_equal s_mines) in H. simpl in H.
    assert (PGen 0 ∈ (∅ : gset pyobj)) by (rewrite H; set_solver). set_solver.
  - apply (Sentence_eqb_respected (new_Sentence {[ (0, 0) ]} 1)
             (mkSentence {[ (0, 0) ]} 1 {[ PGen 0 ]} ∅) (0, 0) 0 0).
    vm_compute; reflexivity.
Defined.

Lemma sentence_answers_no_cell (qs : list sentence_call) :
  ∀ fresh s, no_cell_obj (s_mines s) → no_cell_obj (s_safe s) →
             Forall no_cell_obj (sentence_answers qs fresh s).
Proof.
  induction qs as [|q qs IH]; intros fresh s Hm Hs; [constructor|].
  destruct q as [c|c| |]; simpl.
  - apply IH; unfold Sentence_mark_mine; case_bool_decide; simpl; try done.
    intros t. specialize (Hm t). set_solver.
  - apply IH; unfold Sentence_mark_safe; case_bool_decide; simpl; try done.
    intros t. specialize (Hs t). set_solver.
  - unfold known_mines. case_bool_decide; simpl.
    + assert (no_cell_obj (s_mines s ∪ {[ PGen fresh ]})) as Hm'.
      { intros t. specialize (Hm t). set_solver. }
      constructor; [done|]. by apply IH.
    + constructor; [done|]. by apply IH.
  - unfold known_safes. case_bool_decide; simpl.
    + assert (no_cell_obj (s_safe s ∪ {[ PGen fresh ]})) as Hs'.
      { intros t. specialize (Hs t). set_solver. }
      constructor; [done|]. by apply IH.
    + constructor; [done|]. by apply IH.
Qed.

(** X4.  Whatever sequence of [mark_mine], [mark_safe], [known_mines]
    and [known_safes] calls is made on a sentence fresh from the
    constructor, no set returned by [known_mines] or [known_safes] ever
    holds a cell: the sets [self.mines] and [self.safe] only receive
    [None] and generator objects. *)
Theorem known_sets_never_hold_cells
    (qs : list sentence_call) (fresh : nat) (cs : gset cell) (n : Z) :
  Forall (λ R : gset pyobj, ∀ c, PCell c ∉ R)
         (sentence_answers qs fresh (new_Sentence cs n)).
Proof.
  apply (sentence_answers_no_cell qs fresh (new_Sentence cs n));
    intros c; simpl; set_solver.
Qed.

(** ** Further properties of the agent's constructor and marks *)

Lemma elem_of_all_cells (c : cell) (h w : Z) :
  c ∈ all_cells h w ↔ 0 ≤ c.1 < h ∧ 0 ≤ c.2 < w.
Proof.
  unfold all_cells. rewrite list_elem_of_bind. split.
  - intros (i & Hj & Hi). apply list_elem_of_bind in Hj as (j & Ht & Hj).
    apply list_elem_of_singleton in Ht as ->.
    apply elem_of_seqZ in Hi, Hj. simpl. lia.
  - intros [Hi Hj]. destruct c as [i j]; cbn [fst snd] in *.
    exists i. split; [|apply elem_of_seqZ; lia].
    apply list_elem_of_bind. exists j.
    split; [by apply list_elem_of_singleton|apply elem_of_seqZ; lia].
Qed.

Lemma length_bind_const {A B : Type} (f : A → list B) (m : nat) (l : list A) :
  (∀ x, length (f x) = m) → length (l ≫= f) = (length l * m)%nat.
Proof.
  intros Hf. induction l as [|x l IH]; [done|].
  rewrite bind_cons, length_app, Hf, IH. simpl. lia.
Qed.

Lemma length_all_cells (h w : Z) :
  length (all_cells h w) = (Z.to_nat h * Z.to_nat w)%nat.
Proof.
  unfold all_cells.
  rewrite (length_bind_const _ (Z.to_nat w)), length_seqZ; [done|].
  intros i. rewrite (length_bind_const _ 1%nat), length_seqZ; [lia|done].
Qed.

(** X5.  [MinesweeperAI.__init__] lists in [potential_moves] every cell
    of the board, and nothing else, exactly once: the list has no
    duplicates, a cell is in it if and only if it lies on the
    [height] x [width] board, and its length is [height * width] (zero
    when a dimension is not positive). *)
Theorem new_AI_lists_every_cell_once (h w : Z) :
  NoDup (potential_moves (new_AI h w)) ∧
  (∀ c, c ∈ potential_moves (new_AI h w) ↔ 0 ≤ c.1 < h ∧ 0 ≤ c.2 < w) ∧
  length (potential_moves (new_AI h w)) = (Z.to_nat h * Z.to_nat w)%nat.
Proof.
  split; [apply NoDup_all_cells|].
  split; [intros c; apply elem_of_all_cells|apply length_all_cells].
Qed.

Lemma try_remove_Permutation (x : cell) (l : list cell) :
  l ≡ₚ (if bool_decide (x ∈ l) then [x] else []) ++ try_remove x l.
Proof.
  induction l as [|y l IH].
  - rewrite bool_decide_eq_false_2 by set_solver. done.
  - rewrite try_remove_cons. destruct (decide (y = x)) as [->|Hyx].
    + rewrite bool_decide_eq_true_2 by set_solver. done.
    + destruct (decide (x ∈ l)) as [Hin|Hin].
      * rewrite bool_decide_eq_true_2 in IH by done.
        rewrite bool_decide_eq_true_2 by set_solver. simpl in *.
        rewrite IH at 1. apply perm_swap.
      * rewrite bool_decide_eq_false_2 by set_solver. simpl.
        by rewrite try_remove_absent.
Qed.

(** X6.  [MinesweeperAI.mark_mine(c)]: afterwards [c] is in [mines] and
    in no sentence of the knowledge base; [potential_moves] has lost one
    occurrence of [c] if it held one and is otherwise unchanged (the
    other moves keep their multiplicity); and in every sentence the
    number of cells minus the count is what it was. *)
Theorem mark_mine_settles_cell (c : cell) (a : AI) :
  c ∈ mines (mark_mine c a) ∧
  Forall (λ s, c ∉ cells s) (knowledge (mark_mine c a)) ∧
  potential_moves a ≡ₚ
    (if bool_decide (c ∈ potential_moves a) then [c] else []) ++
    potential_moves (mark_mine c a) ∧
  Forall2 (λ s s', Z.of_nat (size (cells s')) - count s'
                   = Z.of_nat (size (cells s)) - count s)
          (knowledge a) (knowledge (mark_mine c a)).
Proof.
  split; [simpl; set_solver|]. split; [|split].
  - simpl. apply Forall_fmap, Forall_forall. intros s _. simpl.
    rewrite cells_Sentence_mark_mine. set_solver.
  - simpl. apply try_remove_Permutation.
  - simpl. apply Forall2_fmap_r, Forall_Forall2_diag, Forall_forall.
    intros s _. unfold compose. cbv beta. unfold Sentence_mark_mine.
    case_bool_decide as Hc; [|done]. cbn [cells count].
    rewrite (size_remove_present c (cells s) Hc). lia.
Qed.

(** X7.  [MinesweeperAI.mark_safe(c)]: afterwards [c] is in [safes] and
    in no sentence of the knowledge base, every sentence has the count
    it had, and [potential_moves], [mines] and [moves_made] are
    untouched: a cell marked safe stays a potential random move. *)
Theorem mark_safe_settles_cell (c : cell) (a : AI) :
  c ∈ safes (mark_safe c a) ∧
  Forall (λ s, c ∉ cells s) (knowledge (mark_safe c a)) ∧
  count <$> knowledge (mark_safe c a) = count <$> knowledge a ∧
  potential_moves (mark_safe c a) = potential_moves a ∧
  mines (mark_safe c a) = mines a ∧
  moves_made (mark_safe c a) = moves_made a.
Proof.
  split; [simpl; set_solver|]. split; [|split; [|done]].
  - simpl. apply Forall_fmap, Forall_forall. intros s _. simpl.
    rewrite cells_Sentence_mark_safe. set_solver.
  - simpl. rewrite <- list_fmap_compose. apply list_fmap_ext.
    intros _ s _. simpl. unfold Sentence_mark_safe. by case_bool_decide.
Qed.

(** X8.  The loops [for i in safe_cells: self.mark_safe(i)] and
    [for i in new_cells: self.mark_mine(i)] run over Python sets, whose
    iteration order is unspecified: any two orders of the same cells
    leave the agent in the same state. *)
Theorem marking_order_is_irrelevant (l1 l2 : list cell) (a : AI) :
  l1 ≡ₚ l2 →
  foldl (λ st i, mark_safe i st) a l1 = foldl (λ st i, mark_safe i st) a l2 ∧
  foldl (λ st i, mark_mine i st) a l1 = foldl (λ st i, mark_mine i st) a l2.
Proof.
  intros Hp. split.
  - apply (foldl_commuting mark_safe); [apply mark_safe_comm|done].
  - apply (foldl_commuting mark_mine); [apply mark_mine_comm|done].
Qed.

(** X8 on the two orders of the cells [(0,0)] and [(0,1)]. *)
Lemma marking_order_is_irrelevant_witness :
  [(0, 0); (0, 1)] ≡ₚ [(0, 1); (0, 0)] ∧
  foldl (λ st i, mark_mine i st) two_sentence_agent [(0, 0); (0, 1)] =
  foldl (λ st i, mark_mine i st) two_sentence_agent [(0, 1); (0, 0)].
Proof.
  split; [apply perm_swap|].
  apply (marking_order_is_irrelevant [(0, 0); (0, 1)] [(0, 1); (0, 0)]
           two_sentence_agent).
  apply perm_swap.
Defined.

(** ** Further properties of the move selectors *)

(** X9.  [make_safe_move], for any iteration order that visits exactly
    the elements of the set: it returns a cell that is in [safes] and
    not in [moves_made], and it returns [None] only when every safe
    cell has been played (then the agent is unchanged).  In both cases
    [safes], [mines], [moves_made] and the knowledge base are as
    before. *)
Theorem make_safe_move_spec (set_iter : gset cell → list cell) (a : AI) :
  (∀ s c, c ∈ set_iter s ↔ c ∈ s) →
  match (make_safe_move set_iter a).1 with
  | Some c => c ∈ safes a ∧ c ∉ moves_made a
  | None => safes a ⊆ moves_made a ∧ (make_safe_move set_iter a).2 = a
  end ∧
  safes (make_safe_move set_iter a).2 = safes a ∧
  mines (make_safe_move set_iter a).2 = mines a ∧
  moves_made (make_safe_move set_iter a).2 = moves_made a ∧
  knowledge (make_safe_move set_iter a).2 = knowledge a.
Proof.
  intros Hiter. unfold make_safe_move.
  destruct (find _ _) as [c|] eqn:Hf; simpl.
  - split; [|done]. apply find_some in Hf as [Hin Hc].
    apply bool_decide_eq_true in Hc. split; [|done].
    by apply Hiter, list_elem_of_In.
  - split; [|done]. split; [|done]. intros c Hc.
    apply Hiter, list_elem_of_In in Hc.
    pose proof (find_none _ _ Hf c Hc) as Hn. simpl in Hn.
    apply bool_decide_eq_false in Hn. by apply dec_stable.
Qed.

(** X9 with the enumeration [elements], on an agent whose safe cells are
    [(0,0)], already played, and [(0,1)]. *)
Lemma make_safe_move_spec_witness :
  (∀ (s : gset cell) c, c ∈ elements s ↔ c ∈ s) ∧
  match (make_safe_move elements two_safe_cells_agent).1 with
  | Some c => c ∈ safes two_safe_cells_agent ∧ c ∉ moves_made two_safe_cells_agent
  | None => safes two_safe_cells_agent ⊆ moves_made two_safe_cells_agent ∧
            (make_safe_move elements two_safe_cells_agent).2 = two_safe_cells_agent
  end.
Proof.
  split; [intros s c; apply elem_of_elements|].
  apply (make_safe_move_spec elements two_safe_cells_agent).
  intros s c. apply elem_of_elements.
Defined.


(** ** add_knowledge: what the call changes *)

Lemma NoDup_block (c : cell) : NoDup (block c).
Proof.
  unfold block. apply NoDup_bind.
  - intros i1 i2 [x y] _ _ H1 H2.
    apply list_elem_of_bind in H1 as (j1 & H1 & _).
    apply list_elem_of_bind in H2 as (j2 & H2 & _).
    apply list_elem_of_singleton in H1, H2. congruence.
  - intros i _. apply NoDup_bind.
    + intros j1 j2 [x y] _ _ H1 H2.
      apply list_elem_of_singleton in H1, H2. congruence.
    + intros j _. apply NoDup_singleton.
    + apply NoDup_seqZ.
  - apply NoDup_seqZ.
Qed.

Lemma length_block (c : cell) : length (block c) = 9%nat.
Proof.
  unfold block. rewrite (length_bind_const _ 3%nat), length_seqZ; [done|].
  intros i. by rewrite (length_bind_const _ 1%nat), length_seqZ.
Qed.

Lemma size_fresh_neighbours (c : cell) (a : AI) :
  (size (fresh_neighbours c a) ≤ 8)%nat.
Proof.
  unfold fresh_neighbours.
  rewrite size_list_to_set by apply NoDup_filter, NoDup_block.
  assert (length (filter (λ t, t ≠ c ∧ (t ∉ moves_made a) ∧ (t ∉ safes a)
                               ∧ (t ∉ mines a)) (block c)) < length (block c))%nat
    as Hlt.
  { apply (length_filter_lt _ _ c); [|tauto].
    apply elem_of_block. lia. }
  rewrite length_block in Hlt. lia.
Qed.

(** X11.  The straight-line part of [add_knowledge(c, n)] (before the
    loop): [c] joins [moves_made] and [safes]; [mines] and
    [potential_moves] are untouched, so the played cell stays a
    potential random move; every old sentence loses [c] and keeps its
    count; exactly one sentence is appended, with count [n] and at most
    eight cells, all of them neighbours of [c] that are neither [c] nor
    in [moves_made], [safes] or [mines]. *)
Theorem add_knowledge_start_effect (c : cell) (n : Z) (a : AI) :
  moves_made (add_knowledge_start c n a) = moves_made a ∪ {[ c ]} ∧
  safes (add_knowledge_start c n a) = safes a ∪ {[ c ]} ∧
  mines (add_knowledge_start c n a) = mines a ∧
  potential_moves (add_knowledge_start c n a) = potential_moves a ∧
  ∃ olds ns,
    knowledge (add_knowledge_start c n a) = olds ++ [ns] ∧
    Forall2 (λ s s', cells s' = cells s ∖ {[ c ]} ∧ count s' = count s)
            (knowledge a) olds ∧
    count ns = n ∧
    (size (cells ns) ≤ 8)%nat ∧
    Forall (λ t, t ∈ block c) (elements (cells ns)) ∧
    cells ns ## {[ c ]} ∪ moves_made a ∪ safes a ∪ mines a.
Proof.
  split; [done|]. split; [done|]. split; [done|]. split; [done|].
  rewrite knowledge_add_knowledge_start.
  eexists _, _. split; [done|]. split; [|split; [done|split; [|split]]].
  - rewrite <- list_fmap_compose.
    apply Forall2_fmap_r, Forall_Forall2_diag, Forall_forall.
    intros s _. unfold compose, discard_cell, Sentence_mark_safe.
    repeat (case_bool_decide; simpl in * ); split; try done;
      apply leibniz_equiv; set_solver.
  - apply size_fresh_neighbours.
  - apply Forall_forall. intros t Ht. apply elem_of_elements in Ht.
    cbn [cells new_Sentence] in Ht.
    by apply elem_of_fresh_neighbours in Ht as [Ht _].
  - cbn [cells new_Sentence]. intros t Ht.
    apply elem_of_fresh_neighbours in Ht as (_ & H1 & H2 & H3 & H4).
    simpl in *. set_solver.
Qed.

(** *** Each attribute through the marking loops *)

Lemma mines_foldl_mark_safe (l : list cell) :
  ∀ a, mines (foldl (λ st i, mark_safe i st) a l) = mines a.
Proof. induction l as [|x l IH]; intros a; simpl; [done|by rewrite IH]. Qed.

Lemma mines_foldl_mark_mine (l : list cell) :
  ∀ a, mines (foldl (λ st i, mark_mine i st) a l) = mines a ∪ list_to_set l.
Proof.
  induction l as [|x l IH]; intros a; simpl.
  - apply leibniz_equiv. set_solver.
  - rewrite IH. simpl. apply leibniz_equiv. set_solver.
Qed.

Lemma mines_for_each_mark_safe s a : mines (for_each mark_safe s a) = mines a.
Proof. apply mines_foldl_mark_safe. Qed.

Lemma mines_for_each_mark_mine s a :
  mines (for_each mark_mine s a) = mines a ∪ s.
Proof. unfold for_each. by rewrite mines_foldl_mark_mine, list_to_set_elements_L. Qed.

Lemma frame_foldl_mark_safe (l : list cell) :
  ∀ a, moves_made (foldl (λ st i, mark_safe i st) a l) = moves_made a ∧
       potential_moves (foldl (λ st i, mark_safe i st) a l) = potential_moves a ∧
       height (foldl (λ st i, mark_safe i st) a l) = height a ∧
       width (foldl (λ st i, mark_safe i st) a l) = width a.
Proof.
  induction l as [|x l IH]; intros a; simpl; [done|].
  destruct (IH (mark_safe x a)) as (-> & -> & -> & ->). done.
Qed.

Lemma frame_foldl_mark_mine (l : list cell) :
  ∀ a, moves_made (foldl (λ st i, mark_mine i st) a l) = moves_made a ∧
       potential_moves (foldl (λ st i, mark_mine i st) a l) ⊆ potential_moves a ∧
       (NoDup (potential_moves a) →
        NoDup (potential_moves (foldl (λ st i, mark_mine i st) a l))) ∧
       height (foldl (λ st i, mark_mine i st) a l) = height a ∧
       width (foldl (λ st i, mark_mine i st) a l) = width a.
Proof.
  induction l as [|x l IH]; intros a; simpl; [done|].
  destruct (IH (mark_mine x a)) as (-> & Hsub & Hnd & -> & ->).
  split; [done|]. split; [|split; [|done]].
  - etrans; [exact Hsub|]. simpl. apply try_remove_sublist.
  - intros H. apply Hnd. simpl. by apply try_remove_NoDup.
Qed.

Lemma frame_for_each_mark_safe s a :
  moves_made (for_each mark_safe s a) = moves_made a ∧
  potential_moves (for_each mark_safe s a) = potential_moves a ∧
  height (for_each mark_safe s a) = height a ∧
  width (for_each mark_safe s a) = width a.
Proof. apply frame_foldl_mark_safe. Qed.

Lemma frame_for_each_mark_mine s a :
  moves_made (for_each mark_mine s a) = moves_made a ∧
  potential_moves (for_each mark_mine s a) ⊆ potential_moves a ∧
  (NoDup (potential_moves a) → NoDup (potential_moves (for_each mark_mine s a))) ∧
  height (for_each mark_mine s a) = height a ∧
  width (for_each mark_mine s a) = width a.
Proof. apply frame_foldl_mark_mine. Qed.

(** What one execution of the loop body does to every attribute: a set
    [Ys] of cells joins [safes], a set [Ym] joins [mines], both are
    removed from every sentence, at most one sentence is appended, and
    [potential_moves] can only lose cells. *)
Lemma loop_body_effect ns s a :
  ∃ Ys Ym ext,
    safes (loop_body ns s a) = safes a ∪ Ys ∧
    mines (loop_body ns s a) = mines a ∪ Ym ∧
    moves_made (loop_body ns s a) = moves_made a ∧
    potential_moves (loop_body ns s a) ⊆ potential_moves a ∧
    (NoDup (potential_moves a) → NoDup (potential_moves (loop_body ns s a))) ∧
    height (loop_body ns s a) = height a ∧
    width (loop_body ns s a) = width a ∧
    kn_cells (loop_body ns s a) = (λ X, X ∖ (Ys ∪ Ym)) <$> (kn_cells a ++ ext) ∧
    Ys ⊆ cells ns ∩ cells s ∧
    Ym ⊆ (cells ns ∖ cells s) ∪ (cells s ∖ cells ns) ∧
    Forall (λ X, X ⊆ cells ns ∪ cells s) ext ∧
    (length ext ≤ 1)%nat.
Proof.
  unfold loop_body. cbv zeta.
  case_bool_decide as H1; [|case_bool_decide as H2].
  - set (a1 := set_knowledge
                 (knowledge a ++
                  [new_Sentence (cells ns ∖ cells s) (count ns - count s)]) a).
    destruct (frame_for_each_mark_safe (cells ns ∩ cells s) a1)
      as (Hm2 & Hp2 & Hh2 & Hw2).
    case_bool_decide as H3.
    + destruct (frame_for_each_mark_mine (cells ns ∖ cells s)
                  (for_each mark_safe (cells ns ∩ cells s) a1))
        as (Hm3 & Hp3 & Hn3 & Hh3 & Hw3).
      exists (cells ns ∩ cells s), (cells ns ∖ cells s), [cells ns ∖ cells s].
      rewrite safes_for_each_mark_mine, safes_for_each_mark_safe,
        mines_for_each_mark_mine, mines_for_each_mark_safe,
        kn_cells_for_each_mark_mine, kn_cells_for_each_mark_safe,
        Hm3, Hm2, Hh3, Hh2, Hw3, Hw2.
      rewrite Hp2 in Hp3, Hn3.
      split; [done|]. split; [done|]. split; [done|]. split; [done|].
      split; [done|]. split; [done|]. split; [done|].
      split; [|split; [done|split; [set_solver|split; [|done]]]].
      * unfold a1. rewrite kn_cells_set_knowledge, fmap_app, <- list_fmap_compose.
        apply list_fmap_ext. intros _ X _. apply leibniz_equiv. simpl. set_solver.
      * constructor; [set_solver|constructor].
    + exists (cells ns ∩ cells s), ∅, [cells ns ∖ cells s].
      rewrite safes_for_each_mark_safe, mines_for_each_mark_safe,
        kn_cells_for_each_mark_safe, Hm2, Hp2, Hh2, Hw2.
      split; [done|]. split; [apply leibniz_equiv; set_solver|].
      split; [done|]. split; [done|].
      split; [done|]. split; [done|]. split; [done|].
      split; [|split; [done|split; [set_solver|split; [|done]]]].
      * unfold a1. rewrite kn_cells_set_knowledge, fmap_app.
        apply list_fmap_ext. intros _ X _. apply leibniz_equiv. simpl. set_solver.
      * constructor; [set_solver|constructor].
  - set (a1 := set_knowledge
                 (knowledge a ++
                  [new_Sentence (cells s ∖ cells ns) (count s - count ns)]) a).
    case_bool_decide as H3.
    + destruct (frame_for_each_mark_mine (cells s ∖ cells ns) a1)
        as (Hm3 & Hp3 & Hn3 & Hh3 & Hw3).
      exists ∅, (cells s ∖ cells ns), [cells s ∖ cells ns].
      rewrite safes_for_each_mark_mine, mines_for_each_mark_mine,
        kn_cells_for_each_mark_mine, Hm3, Hh3, Hw3.
      split; [apply leibniz_equiv; set_solver|]. split; [done|].
      split; [done|]. split; [done|].
      split; [done|]. split; [done|]. split; [done|].
      split; [|split; [done|split; [set_solver|split; [|done]]]].
      * unfold a1. rewrite kn_cells_set_knowledge, fmap_app.
        apply list_fmap_ext. intros _ X _. apply leibniz_equiv. simpl. set_solver.
      * constructor; [set_solver|constructor].
    + exists ∅, ∅, [cells s ∖ cells ns].
      split; [apply leibniz_equiv; set_solver|].
      split; [apply leibniz_equiv; set_solver|].
      split; [done|]. split; [done|].
      split; [done|]. split; [done|]. split; [done|].
      split; [|split; [done|split; [set_solver|split; [|done]]]].
      * unfold a1. rewrite kn_cells_set_knowledge, fmap_app.
        rewrite <- (list_fmap_id (_ ++ _)) at 1. apply list_fmap_ext.
        intros _ X _. apply leibniz_equiv. simpl. set_solver.
      * constructor; [set_solver|constructor].
  - exists ∅, ∅, [].
    split; [apply leibniz_equiv; set_solver|].
    split; [apply leibniz_equiv; set_solver|].
    split; [done|]. split; [done|].
    split; [done|]. split; [done|]. split; [done|].
    split; [|split; [done|split; [set_solver|split; [done|simpl; lia]]]].
    rewrite app_nil_r. rewrite <- (list_fmap_id (kn_cells a)) at 1.
    apply list_fmap_ext. intros _ X _. apply leibniz_equiv. simpl. set_solver.
Qed.

(** ** add_knowledge: what holds at every iteration of the loop *)

Lemma loop_step_Some n i a p' :
  loop_step n (i, a) = Some p' →
  ∃ ns s, knowledge a !! n = Some ns ∧ knowledge a !! i = Some s ∧
          p' = (S i, loop_body ns s a).
Proof.
  unfold loop_step; simpl.
  destruct (knowledge a !! i) as [s|]; [|done].
  destruct (knowledge a !! n) as [ns|]; [|done].
  intros [= <-]. by exists ns, s.
Qed.

(** A property of the agent that every execution of the loop body
    preserves holds at every iteration. *)
Lemma loop_after_preserves (P : AI → Prop) (n : nat) :
  (∀ ns s a, ns ∈ knowledge a → s ∈ knowledge a → P a → P (loop_body ns s a)) →
  ∀ k p, P p.2 → P (loop_after k n p).2.
Proof.
  intros HP. induction k as [|k IH]; intros [i a] Hp; [done|]. simpl.
  destruct (loop_step n (i, a)) as [p'|] eqn:Hs; [|done].
  apply loop_step_Some in Hs as (ns & s & Hns & Hs & ->).
  apply IH. simpl. apply HP; [| |done]; by eapply list_elem_of_lookup_2.
Qed.

Lemma try_remove_keeps (t c : cell) (l : list cell) :
  t ∈ l → t ≠ c → t ∈ try_remove c l.
Proof.
  intros Ht Hc. induction l as [|y l IH]; [done|].
  rewrite try_remove_cons. destruct (decide (y = c)) as [->|].
  - apply elem_of_cons in Ht as [?|?]; [congruence|done].
  - apply elem_of_cons in Ht as [->|?]; [left|right; by apply IH].
Qed.

Lemma kept_foldl_mark_mine (l : list cell) (t : cell) :
  ∀ a, t ∈ potential_moves a →
       t ∈ potential_moves (foldl (λ st i, mark_mine i st) a l) ∨
       t ∈ mines (foldl (λ st i, mark_mine i st) a l).
Proof.
  induction l as [|x l IH]; intros a Ht; simpl; [by left|].
  destruct (decide (t = x)) as [->|Hx].
  - right. rewrite mines_foldl_mark_mine. simpl. set_solver.
  - apply IH. simpl. by apply try_remove_keeps.
Qed.

Lemma kept_loop_body ns s a (t : cell) :
  t ∈ potential_moves a →
  t ∈ potential_moves (loop_body ns s a) ∨ t ∈ mines (loop_body ns s a).
Proof.
  intros Ht. unfold loop_body. cbv zeta.
  case_bool_decide; [|case_bool_decide]; try case_bool_decide; try by left.
  - apply kept_foldl_mark_mine.
    by destruct (frame_for_each_mark_safe (cells ns ∩ cells s)
                   (set_knowledge
                      (knowledge a ++
                       [new_Sentence (cells ns ∖ cells s) (count ns - count s)]) a))
      as (_ & -> & _).
  - left. by destruct (frame_for_each_mark_safe (cells ns ∩ cells s)
                   (set_knowledge
                      (knowledge a ++
                       [new_Sentence (cells ns ∖ cells s) (count ns - count s)]) a))
      as (_ & -> & _).
  - by apply kept_foldl_mark_mine.
Qed.

(** X13.  At every iteration of the loop of [add_knowledge(c, n)]:
    [moves_made] is the old set plus [c]; [safes] and [mines] have only
    grown; [potential_moves] has only lost cells, and every cell it
    lost is in [mines]; the board dimensions are unchanged. *)
Theorem add_knowledge_only_adds (k : nat) (c : cell) (n : Z) (a : AI) :
  moves_made (during_add_knowledge k c n a) = moves_made a ∪ {[ c ]} ∧
  safes a ∪ {[ c ]} ⊆ safes (during_add_knowledge k c n a) ∧
  mines a ⊆ mines (during_add_knowledge k c n a) ∧
  potential_moves (during_add_knowledge k c n a) ⊆ potential_moves a ∧
  Forall (λ t, t ∈ potential_moves (during_add_knowledge k c n a) ∨
               t ∈ mines (during_add_knowledge k c n a))
         (potential_moves a) ∧
  height (during_add_knowledge k c n a) = height a ∧
  width (during_add_knowledge k c n a) = width a.
Proof.
  unfold during_add_knowledge.
  apply (loop_after_preserves
           (λ a', moves_made a' = moves_made a ∪ {[ c ]} ∧
                  safes a ∪ {[ c ]} ⊆ safes a' ∧
                  mines a ⊆ mines a' ∧
                  potential_moves a' ⊆ potential_moves a ∧
                  Forall (λ t, t ∈ potential_moves a' ∨ t ∈ mines a')
                         (potential_moves a) ∧
                  height a' = height a ∧ width a' = width a)).
  - intros ns s a' _ _ (Hm & Hs & Hmi & Hp & Hk & Hh & Hw).
    destruct (loop_body_effect ns s a')
      as (Ys & Ym & ext & -> & Hmines & -> & Hp' & _ & -> & -> & _).
    split; [done|]. split; [set_solver|]. split; [rewrite Hmines; set_solver|].
    split; [by etrans|]. split; [|done].
    eapply Forall_impl; [exact Hk|]. simpl. intros t [Ht|Ht].
    + by apply kept_loop_body.
    + right. rewrite Hmines. set_solver.
  - simpl. split; [done|]. split; [done|]. split; [done|]. split; [done|].
    split; [|done]. apply Forall_forall. intros t Ht. by left.
Qed.

Lemma kn_cells_add_knowledge_start (c : cell) (n : Z) (a : AI) :
  kn_cells (add_knowledge_start c n a) =
    ((λ X, X ∖ {[ c ]}) <$> kn_cells a) ++
    [fresh_neighbours c
       (set_safes (safes a ∪ {[ c ]}) (set_moves_made (moves_made a ∪ {[ c ]}) a))].
Proof.
  unfold kn_cells. rewrite knowledge_add_knowledge_start, fmap_app.
  f_equal. rewrite <- !list_fmap_compose. apply list_fmap_ext.
  intros _ s _. unfold compose, discard_cell, Sentence_mark_safe.
  repeat (case_bool_decide; simpl in * ); try done;
    apply leibniz_equiv; set_solver.
Qed.

Lemma resolved_pruned_start (c : cell) (n : Z) (a : AI) :
  resolved_pruned a → c ∉ mines a → resolved_pruned (add_knowledge_start c n a).
Proof.
  intros [Hk Hd] Hc. unfold resolved_pruned.
  rewrite kn_cells_add_knowledge_start.
  change (safes (add_knowledge_start c n a)) with (safes a ∪ {[ c ]}).
  change (mines (add_knowledge_start c n a)) with (mines a).
  split; [|set_solver].
  apply Forall_app. split.
  - apply Forall_fmap. eapply Forall_impl; [exact Hk|]. simpl. set_solver.
  - repeat constructor. intros t Ht.
    apply elem_of_fresh_neighbours in Ht as (_ & H1 & H2 & H3 & H4).
    simpl in *. set_solver.
Qed.

Lemma resolved_pruned_loop_body ns s a :
  ns ∈ knowledge a → s ∈ knowledge a →
  resolved_pruned a → resolved_pruned (loop_body ns s a).
Proof.
  intros Hns Hs [Hk Hd].
  assert (∀ x, x ∈ knowledge a → cells x ## safes a ∪ mines a) as Hin.
  { intros x Hx. unfold kn_cells in Hk. apply Forall_fmap in Hk.
    rewrite Forall_forall in Hk. by apply Hk. }
  pose proof (Hin ns Hns) as H1. pose proof (Hin s Hs) as H2.
  destruct (loop_body_effect ns s a)
    as (Ys & Ym & ext & Hsa & Hmi & _ & _ & _ & _ & _ & Hkn & HYs & HYm & Hext & _).
  unfold resolved_pruned. rewrite Hsa, Hmi, Hkn. split; [|set_solver].
  apply Forall_fmap, Forall_app. split.
  - eapply Forall_impl; [exact Hk|]. simpl. set_solver.
  - eapply Forall_impl; [exact Hext|]. simpl. set_solver.
Qed.

(** X14.  An invariant the code does keep.  If, before a call
    [add_knowledge(c, n)], no sentence mentions a cell of [safes] or
    [mines], no cell is in both sets and [c] is not a known mine, then
    the same holds at every iteration of the loop: cells that become
    known are removed from every sentence, old and new, and [safes] and
    [mines] stay disjoint. *)
Theorem add_knowledge_keeps_resolved_cells_out (k : nat) (c : cell) (n : Z) (a : AI) :
  resolved_pruned a → c ∉ mines a →
  resolved_pruned (during_add_knowledge k c n a).
Proof.
  intros Ha Hc. unfold during_add_knowledge.
  apply (loop_after_preserves resolved_pruned).
  - apply resolved_pruned_loop_body.
  - by apply resolved_pruned_start.
Qed.

(** X14 on the agent that holds [{A,B,C} = 1] and [{A,B} = 1], after
    four iterations of [add_knowledge((0,2), 0)]. *)
Lemma add_knowledge_keeps_resolved_cells_out_witness :
  resolved_pruned two_sentence_agent ∧ ((0, 2) ∉ mines two_sentence_agent) ∧
  resolved_pruned (during_add_knowledge 4 (0, 2) 0 two_sentence_agent).
Proof.
  assert (resolved_pruned two_sentence_agent) as H1.
  { split; [|apply (bool_decide_unpack _); vm_compute; reflexivity].
    repeat constructor; apply (bool_decide_unpack _); vm_compute; reflexivity. }
  assert ((0, 2) ∉ mines two_sentence_agent) as H2.
  { apply (bool_decide_unpack _); vm_compute; reflexivity. }
  split; [exact H1|]. split; [exact H2|].
  exact (add_knowledge_keeps_resolved_cells_out 4 (0, 2) 0 two_sentence_agent H1 H2).
Defined.

Lemma loop_after_index k n p :
  keeps_running n p → (loop_after k n p).1 = (p.1 + k)%nat.
Proof.
  revert p. induction k as [|k IH]; intros [i a] Hp; simpl; [lia|].
  destruct (keeps_running_step n (i, a) Hp) as (p' & Hs & Hp').
  rewrite Hs. apply loop_step_Some in Hs as (ns & s & _ & _ & ->).
  rewrite (IH _ Hp'). simpl. lia.
Qed.

(** X15.  The knowledge base outgrows the iterator.  After [k]
    iterations of the loop of [add_knowledge] the iterator stands at
    index [k], the list holds more than [k] sentences and more than it
    held before the call, and it never gets shorter from one iteration
    to the next: its length is unbounded. *)
Theorem knowledge_outgrows_the_iterator (k : nat) (c : cell) (n : Z) (a : AI) :
  (loop_after k (length (knowledge a)) (0%nat, add_knowledge_start c n a)).1 = k ∧
  (k < length (knowledge (during_add_knowledge k c n a)))%nat ∧
  (length (knowledge a) < length (knowledge (during_add_knowledge k c n a)))%nat ∧
  (length (knowledge (during_add_knowledge k c n a)) ≤
   length (knowledge (during_add_knowledge (S k) c n a)))%nat.
Proof.
  pose proof (keeps_running_start c n a) as H0.
  pose proof (keeps_running_loop_after k _ _ H0) as Hk.
  pose proof (loop_after_index k _ _ H0) as Hi. simpl in Hi.
  unfold during_add_knowledge.
  destruct Hk as [Hn Hor]. rewrite length_kn_cells in Hn, Hor. rewrite Hi in Hor.
  split; [done|]. split; [destruct Hor as [?|[_ ?]]; lia|]. split; [done|].
  replace (S k) with (k + 1)%nat by lia. rewrite loop_after_add.
  destruct (loop_after k (length (knowledge a)) (0%nat, add_knowledge_start c n a))
    as [i a'].
  simpl. destruct (loop_step _ (i, a')) as [p'|] eqn:Hs; [|done].
  apply loop_step_Some in Hs as (ns & s & _ & _ & ->). simpl.
  destruct (loop_body_effect ns s a')
    as (Ys & Ym & ext & _ & _ & _ & _ & _ & _ & _ & Hkn & _).
  rewrite <- !length_kn_cells, Hkn, length_fmap, length_app. lia.
Qed.

(** ** add_knowledge: the first call *)

(** Visiting [new_sentence] itself: the sentence appended is
    [{} = 0], every cell of [new_sentence] is marked safe and no cell is
    marked as a mine. *)
Lemma loop_body_self ns a :
  loop_body ns ns a =
    for_each mark_safe (cells ns)
      (set_knowledge (knowledge a ++ [new_Sentence ∅ 0]) a).
Proof.
  unfold loop_body. cbv zeta. rewrite bool_decide_eq_true_2 by done.
  rewrite difference_diag_L, Z.sub_diag, size_empty.
  rewrite bool_decide_eq_true_2 by done.
  assert (cells ns ∩ cells ns = cells ns) as -> by (apply leibniz_equiv; set_solver).
  unfold for_each at 1. by rewrite elements_empty.
Qed.

Lemma first_call_one_step (c : cell) (n : Z) (a : AI) :
  knowledge a = [] →
  ∃ ns, cells ns =
          fresh_neighbours c
            (set_safes (safes a ∪ {[ c ]}) (set_moves_made (moves_made a ∪ {[ c ]}) a)) ∧
        loop_after 1 (length (knowledge a)) (0%nat, add_knowledge_start c n a) =
          (1%nat, for_each mark_safe (cells ns)
                    (set_knowledge [ns; new_Sentence ∅ 0]
                                   (add_knowledge_start c n a))).
Proof.
  intros Hk.
  exists (new_Sentence
            (fresh_neighbours c
               (set_safes (safes a ∪ {[ c ]})
                          (set_moves_made (moves_made a ∪ {[ c ]}) a))) n).
  split; [reflexivity|].
  assert (knowledge (add_knowledge_start c n a) =
          [new_Sentence
             (fresh_neighbours c
                (set_safes (safes a ∪ {[ c ]})
                           (set_moves_made (moves_made a ∪ {[ c ]}) a))) n]) as Hkn.
  { by rewrite knowledge_add_knowledge_start, Hk. }
  rewrite Hk. simpl length.
  unfold loop_after, loop_step. cbn [fst snd]. rewrite Hkn. cbn [lookup list_lookup].
  by rewrite loop_body_self, Hkn.
Qed.

Lemma first_call_resting (c : cell) (n : Z) (a : AI) :
  knowledge a = [] → resting 1 c n a = true.
Proof.
  intros Hk. unfold resting.
  destruct (first_call_one_step c n a Hk) as (ns & Hns & ->).
  rewrite Hk. simpl length. unfold tail_ready. cbn [fst snd].
  pose proof (kn_cells_for_each_mark_safe (cells ns)
                (set_knowledge [ns; new_Sentence ∅ 0]
                               (add_knowledge_start c n a))) as Hkc.
  rewrite kn_cells_set_knowledge in Hkc. simpl in Hkc.
  rewrite difference_diag_L in Hkc.
  assert ((∅ : gset cell) ∖ cells ns = ∅) as He by (apply leibniz_equiv; set_solver).
  rewrite He in Hkc.
  rewrite Hkc. unfold kn_cells in Hkc.
  destruct (knowledge (for_each mark_safe (cells ns) _)) as [|s0 [|s1 [|s2 l]]];
    try discriminate.
  injection Hkc as H0 H1. simpl.
  rewrite !andb_true_iff, !bool_decide_eq_true.
  done.
Qed.

(** X12.  On an agent with an empty knowledge base, as every agent is
    when [add_knowledge] is first called: from the first iteration of
    the loop on and whatever the count, no cell has been marked as a
    mine, [potential_moves] is untouched, [safes] holds the played cell
    and all its neighbours that were neither played nor known mines,
    and every sentence of the knowledge base has no cells. *)
Theorem first_call_finds_no_mine (k : nat) (c : cell) (n : Z) (a : AI) :
  knowledge a = [] →
  mines (during_add_knowledge (S k) c n a) = mines a ∧
  potential_moves (during_add_knowledge (S k) c n a) = potential_moves a ∧
  moves_made (during_add_knowledge (S k) c n a) = moves_made a ∪ {[ c ]} ∧
  (∀ t, t ∈ safes (during_add_knowledge (S k) c n a) ↔
        t ∈ safes a ∨ t = c ∨ (t ∈ block c ∧ (t ∉ moves_made a) ∧ (t ∉ mines a))) ∧
  Forall (λ s, cells s = ∅) (knowledge (during_add_knowledge (S k) c n a)).
Proof.
  intros Hk. pose proof (first_call_resting c n a Hk) as Hr.
  change (S k) with (1 + k)%nat.
  rewrite (mines_during_tail 1 k c n a Hr), (potential_moves_during_tail 1 k c n a Hr),
    (moves_made_during_tail 1 k c n a Hr), (safes_during_tail 1 k c n a Hr).
  destruct (knowledge_during_tail 1 k c n a Hr) as (ext & Hext & ->).
  unfold during_add_knowledge.
  destruct (first_call_one_step c n a Hk) as (ns & Hns & ->). cbn [snd].
  rewrite mines_for_each_mark_safe, safes_for_each_mark_safe.
  destruct (frame_for_each_mark_safe (cells ns)
              (set_knowledge [ns; new_Sentence ∅ 0]
                             (add_knowledge_start c n a)))
    as (-> & -> & _).
  split; [done|]. split; [done|]. split; [done|]. split.
  - intros t. rewrite Hns.
    change (safes (set_knowledge _ (add_knowledge_start c n a)))
      with (safes a ∪ {[ c ]}).
    rewrite elem_of_union, elem_of_fresh_neighbours. simpl.
    rewrite !elem_of_union, !elem_of_singleton.
    destruct (decide (t = c)); destruct (decide (t ∈ safes a)); tauto.
  - apply Forall_app. split; [|done].
    pose proof (kn_cells_for_each_mark_safe (cells ns)
                  (set_knowledge [ns; new_Sentence ∅ 0]
                                 (add_knowledge_start c n a))) as Hkc.
    rewrite kn_cells_set_knowledge in Hkc. unfold kn_cells in Hkc.
    apply Forall_forall. intros s Hs.
    apply (list_elem_of_fmap_2 cells) in Hs. rewrite Hkc in Hs. simpl in Hs.
    rewrite !elem_of_cons, elem_of_nil in Hs.
    destruct Hs as [Hs|[Hs|[]]]; rewrite Hs; apply leibniz_equiv; set_solver.
Qed.

(** X12 on a fresh 3 x 3 agent that is told that [(1,1)] has eight
    mines around it. *)
Lemma first_call_finds_no_mine_witness :
  knowledge (new_AI 3 3) = [] ∧
  mines (during_add_knowledge 3 (1, 1) 8 (new_AI 3 3)) = mines (new_AI 3 3).
Proof.
  split; [reflexivity|].
  apply (first_call_finds_no_mine 2 (1, 1) 8 (new_AI 3 3)). reflexivity.
Defined.

(** ** The board *)

Lemma py_index_nonneg {A : Type} (l : list A) (i : Z) :
  0 ≤ i → py_index l i = l !! Z.to_nat i.
Proof. intros. unfold py_index. by rewrite bool_decide_eq_true_2. Qed.

Lemma board_at_nonneg (g : Minesweeper) (i j : Z) :
  0 ≤ i → 0 ≤ j →
  board_at g i j = board g !! Z.to_nat i ≫= (.!! Z.to_nat j).
Proof.
  intros Hi Hj. unfold board_at. rewrite py_index_nonneg by done.
  destruct (board g !! Z.to_nat i) as [row|]; simpl; [|done].
  by rewrite py_index_nonneg.
Qed.

Lemma board_at_in_bounds (g : Minesweeper) (i j : Z) :
  board_ok g → 0 ≤ i < b_height g → 0 ≤ j < b_width g →
  ∃ b, board_at g i j = Some b.
Proof.
  intros [Hl Hr] Hi Hj. rewrite board_at_nonneg by lia.
  destruct (lookup_lt_is_Some_2 (board g) (Z.to_nat i)) as [row Hrow]; [lia|].
  rewrite Hrow. simpl.
  rewrite Forall_lookup in Hr. specialize (Hr _ _ Hrow). simpl in Hr.
  destruct (lookup_lt_is_Some_2 row (Z.to_nat j)) as [b Hb]; [lia|]. eauto.
Qed.

Lemma nearby_mines_fold (g : Minesweeper) (c : cell) (l : list cell) :
  board_ok g →
  ∀ n,
    foldl (λ acc t,
             n ← acc;
             if bool_decide (t = c) then Some n
             else if bool_decide (0 ≤ t.1 < b_height g ∧ 0 ≤ t.2 < b_width g)
                  then b ← board_at g t.1 t.2; Some (if b : bool then n + 1 else n)
                  else Some n)
          (Some n) l =
    Some (n + Z.of_nat
                (length (filter (λ t, t ≠ c ∧
                                      (0 ≤ t.1 < b_height g ∧ 0 ≤ t.2 < b_width g) ∧
                                      board_at g t.1 t.2 = Some true) l))).
Proof.
  intros Hok. induction l as [|t l IH]; intros n; simpl.
  - f_equal. lia.
  - case_bool_decide as Hc.
    + rewrite IH, filter_cons_False by tauto. done.
    + case_bool_decide as Hb.
      * destruct (board_at_in_bounds g t.1 t.2 Hok) as [b Hv]; [tauto|tauto|].
        rewrite Hv. simpl. rewrite IH. destruct b.
        -- rewrite filter_cons_True by tauto. f_equal. simpl length. lia.
        -- rewrite filter_cons_False; [done|]. intros (_ & _ & ?). congruence.
      * rewrite IH, filter_cons_False by tauto. done.
Qed.

(** X16.  On a board that has the dimensions recorded with it,
    [nearby_mines] never raises, at border cells or elsewhere, and
    returns the number of cells of the 3 x 3 block around the cell,
    other than the cell itself, that lie on the board and hold a mine;
    that number is at most 8. *)
Theorem nearby_mines_counts_neighbours (g : Minesweeper) (c : cell) :
  board_ok g →
  nearby_mines g c = Some (Z.of_nat (length (mined_neighbours g c))) ∧
  (length (mined_neighbours g c) ≤ 8)%nat.
Proof.
  intros Hok. split.
  - unfold nearby_mines. by rewrite (nearby_mines_fold g c (block c) Hok 0).
  - assert (length (mined_neighbours g c) < length (block c))%nat as Hlt.
    { apply (length_filter_lt _ _ c); [|tauto]. apply elem_of_block. lia. }
    rewrite length_block in Hlt. lia.
Qed.

(** X16 at the corner [(0,0)] of the 3 x 3 board with one mine. *)
Lemma nearby_mines_counts_neighbours_witness :
  board_ok one_mine_board ∧
  nearby_mines one_mine_board (0, 0) =
    Some (Z.of_nat (length (mined_neighbours one_mine_board (0, 0)))) ∧
  nearby_mines one_mine_board (0, 0) = Some 1.
Proof.
  assert (board_ok one_mine_board) as Hok.
  { split; [reflexivity|]. repeat constructor. }
  split; [exact Hok|]. split; [|vm_compute; reflexivity].
  apply (nearby_mines_counts_neighbours one_mine_board (0, 0) Hok).
Defined.

(** ** The constructor of the game *)

Lemma set_mine_lookup (b : list (list bool)) (i j i' j' : nat) (row : list bool) :
  b !! i = Some row → (j < length row)%nat →
  set_mine i j b !! i' ≫= (.!! j') =
    if decide (i' = i ∧ j' = j) then Some true else b !! i' ≫= (.!! j').
Proof.
  intros Hrow Hj. unfold set_mine. rewrite Hrow.
  pose proof (lookup_lt_Some _ _ _ Hrow) as Hi.
  destruct (decide (i' = i)) as [->|Hi'].
  - rewrite list_lookup_insert_eq by done. simpl.
    destruct (decide (j' = j)) as [->|Hj'].
    + rewrite list_lookup_insert_eq by done. by rewrite decide_True.
    + rewrite list_lookup_insert_ne by done. rewrite decide_False by tauto.
      by rewrite Hrow.
  - rewrite list_lookup_insert_ne by done. by rewrite decide_False by tauto.
Qed.

Lemma field_inv_empty (h w : Z) : field_inv h w (empty_field h w) ∅.
Proof.
  unfold field_inv, empty_field. split; [by rewrite length_replicate|].
  split; [apply Forall_replicate; by rewrite length_replicate|].
  split; [|set_solver]. intros i j. split; [|set_solver].
  destruct (replicate _ _ !! i) as [row|] eqn:Hi; simpl; [|done].
  apply lookup_replicate in Hi as [-> _]. intros Hj.
  by apply lookup_replicate in Hj as [? _].
Qed.

Lemma field_inv_set_mine (h w : Z) (b : list (list bool)) (ms : gset cell) (i j : nat) :
  field_inv h w b ms → (i < Z.to_nat h)%nat → (j < Z.to_nat w)%nat →
  field_inv h w (set_mine i j b) (ms ∪ {[ (Z.of_nat i, Z.of_nat j) ]}).
Proof.
  intros (Hl & Hr & Hm & Hpos) Hi Hj.
  destruct (lookup_lt_is_Some_2 b i) as [row Hrow]; [lia|].
  pose proof Hr as Hr'. rewrite Forall_lookup in Hr'.
  pose proof (Hr' _ _ Hrow) as Hlen. simpl in Hlen.
  split; [|split; [|split]].
  - unfold set_mine. rewrite Hrow. by rewrite length_insert.
  - unfold set_mine. rewrite Hrow. apply Forall_insert; [done|].
    by rewrite length_insert.
  - intros i' j'. rewrite (set_mine_lookup b i j i' j' row Hrow) by lia.
    rewrite elem_of_union, elem_of_singleton, <- Hm.
    destruct (decide (i' = i ∧ j' = j)) as [[-> ->]|Hne].
    + split; [by right|done].
    + split; [by left|]. intros [?|Heq]; [done|].
      exfalso. apply Hne. injection Heq as H1 H2. lia.
  - intros t [Ht| ->%elem_of_singleton]%elem_of_union; [by apply Hpos|].
    simpl. lia.
Qed.

Lemma field_inv_size (h w : Z) (b : list (list bool)) (ms : gset cell) :
  field_inv h w b ms → (size ms ≤ Z.to_nat h * Z.to_nat w)%nat.
Proof.
  intros (Hl & Hr & Hm & Hpos).
  rewrite <- length_all_cells, <- (size_list_to_set (C := gset cell))
    by apply NoDup_all_cells.
  apply subseteq_size. intros t Ht. apply elem_of_list_to_set, elem_of_all_cells.
  destruct (Hpos t Ht) as [H1 H2]. destruct t as [x y]; simpl in *.
  assert ((Z.of_nat (Z.to_nat x), Z.of_nat (Z.to_nat y)) ∈ ms) as Ht'.
  { by rewrite !Z2Nat.id. }
  apply Hm in Ht'.
  destruct (b !! Z.to_nat x) as [row|] eqn:Hrow; simpl in Ht'; [|done].
  pose proof (lookup_lt_Some _ _ _ Hrow) as Hx.
  pose proof (lookup_lt_Some _ _ _ Ht') as Hy.
  rewrite Forall_lookup in Hr. specialize (Hr _ _ Hrow). simpl in Hr. lia.
Qed.

(** What the placing loop guarantees from any field that satisfies the
    invariant. *)
Lemma place_mines_spec (draws : list (nat * nat)) (h w target : Z) :
  ∀ b ms, field_inv h w b ms →
    match place_mines draws h w target b ms with
    | Built g =>
        ∃ b', g_board g = mkBoard h w b' ∧ field_inv h w b' (g_mines g) ∧
              Z.of_nat (size (g_mines g)) = target ∧ g_found g = ∅
    | RaisesValueError => h ≤ 0 ∨ w ≤ 0
    | RaisesIndexError => False
    | StillPlacing => 0 < h ∧ 0 < w
    end.
Proof.
  induction draws as [|[r1 r2] draws IH]; intros b ms Hinv; cbn [place_mines].
  - case_bool_decide; [by exists b|].
    case_bool_decide as Hh; [by left|]. case_bool_decide as Hw; [by right|]. lia.
  - case_bool_decide; [by exists b|].
    case_bool_decide as Hh; [by left|]. case_bool_decide as Hw; [by right|].
    cbv zeta.
    assert (r1 `mod` Z.to_nat h < Z.to_nat h)%nat as Hi
      by (apply Nat.mod_upper_bound; lia).
    assert (r2 `mod` Z.to_nat w < Z.to_nat w)%nat as Hj
      by (apply Nat.mod_upper_bound; lia).
    pose proof Hinv as (Hl & Hr & _).
    destruct (lookup_lt_is_Some_2 b (r1 `mod` Z.to_nat h)%nat) as [row Hrow]; [lia|].
    rewrite Forall_lookup in Hr. specialize (Hr _ _ Hrow). simpl in Hr.
    destruct (lookup_lt_is_Some_2 row (r2 `mod` Z.to_nat w)%nat) as [v Hv]; [lia|].
    rewrite Hrow. simpl. rewrite Hv. destruct v.
    + by apply IH.
    + apply IH. by apply field_inv_set_mine.
Qed.

Lemma place_mines_done (draws : list (nat * nat)) (h w target : Z)
    (b : list (list bool)) (ms : gset cell) :
  Z.of_nat (size ms) = target →
  place_mines draws h w target b ms = Built (mkGame (mkBoard h w b) ms ∅).
Proof.
  intros Hs. destruct draws as [|[r1 r2] draws]; cbn [place_mines];
    by rewrite bool_decide_eq_true_2.
Qed.

(** With mines still to place, a non-positive dimension makes the
    iteration raise, with or without draws. *)
Lemma place_mines_bad_dimension (draws : list (nat * nat)) (h w target : Z)
    (b : list (list bool)) (ms : gset cell) :
  Z.of_nat (size ms) ≠ target → h ≤ 0 ∨ w ≤ 0 →
  place_mines draws h w target b ms = RaisesValueError.
Proof.
  intros Hs Hd. destruct draws as [|[r1 r2] draws]; cbn [place_mines];
    rewrite bool_decide_eq_false_2 by done;
    case_bool_decide; try done; by rewrite bool_decide_eq_true_2 by lia.
Qed.

Lemma is_mine_field (h w : Z) (b : list (list bool)) (ms : gset cell) (c : cell) :
  field_inv h w b ms →
  c ∈ ms ↔ (0 ≤ c.1 < h ∧ 0 ≤ c.2 < w) ∧ is_mine (mkBoard h w b) c = Some true.
Proof.
  intros Hinv. pose proof Hinv as (Hl & Hr & Hm & Hpos).
  destruct c as [x y]. unfold is_mine. cbn [fst snd]. split.
  - intros Hc. destruct (Hpos _ Hc) as [Hx Hy]; simpl in Hx, Hy.
    rewrite board_at_nonneg by done. cbn [board].
    assert ((Z.of_nat (Z.to_nat x), Z.of_nat (Z.to_nat y)) ∈ ms) as Hc'.
    { by rewrite !Z2Nat.id. }
    apply Hm in Hc'. split; [|done].
    destruct (b !! Z.to_nat x) as [row|] eqn:Hrow; simpl in Hc'; [|done].
    pose proof (lookup_lt_Some _ _ _ Hrow) as Hx'.
    pose proof (lookup_lt_Some _ _ _ Hc') as Hy'.
    rewrite Forall_lookup in Hr. specialize (Hr _ _ Hrow). simpl in Hr. lia.
  - intros [[Hx Hy] Hb]. rewrite board_at_nonneg in Hb by lia. cbn [board] in Hb.
    apply Hm in Hb. by rewrite !Z2Nat.id in Hb by lia.
Qed.

(** X17.  [Minesweeper.__init__(height, width, mines)], for every
    sequence of random draws.  If the constructor returns, the board
    has [height] rows of [width] squares, [self.mines] has exactly
    [mines] elements, it is the set of the cells of the board that hold
    a mine, no mine has been found, and [won()] answers true exactly
    when [mines] is 0.  It raises [ValueError] exactly when a dimension
    is not positive and [mines] is not 0, with or without draws; while
    the placing loop is still running both dimensions are positive and
    [mines] is not 0; and it never raises [IndexError]. *)
Theorem new_Minesweeper_spec (draws : list (nat * nat)) (h w target : Z) :
  match new_Minesweeper draws h w target with
  | Built g =>
      b_height (g_board g) = h ∧ b_width (g_board g) = w ∧
      board_ok (g_board g) ∧
      Z.of_nat (size (g_mines g)) = target ∧
      (∀ c, c ∈ g_mines g ↔
            (0 ≤ c.1 < h ∧ 0 ≤ c.2 < w) ∧ is_mine (g_board g) c = Some true) ∧
      g_found g = ∅ ∧
      won g = bool_decide (target = 0)
  | RaisesValueError => (h ≤ 0 ∨ w ≤ 0) ∧ target ≠ 0
  | RaisesIndexError => False
  | StillPlacing => target ≠ 0 ∧ 0 < h ∧ 0 < w
  end ∧
  (new_Minesweeper draws h w target = RaisesValueError ↔
   (h ≤ 0 ∨ w ≤ 0) ∧ target ≠ 0).
Proof.
  unfold new_Minesweeper.
  pose proof (place_mines_spec draws h w target _ _ (field_inv_empty h w)) as Hs.
  assert (target = 0 → ∃ g, place_mines draws h w target (empty_field h w) ∅ = Built g)
    as H0.
  { intros ->. eexists. by apply place_mines_done. }
  assert ((h ≤ 0 ∨ w ≤ 0) ∧ target ≠ 0 →
          place_mines draws h w target (empty_field h w) ∅ = RaisesValueError) as H1.
  { intros [Hd Ht]. apply place_mines_bad_dimension; [|done].
    rewrite size_empty. lia. }
  destruct (place_mines draws h w target (empty_field h w) ∅) as [g| | |].
  - split; [|split; [done|intros H; by specialize (H1 H)]].
    destruct Hs as (b' & Hb & Hinv & Hsz & Hf).
    rewrite Hb. cbn [b_height b_width].
    split; [done|]. split; [done|]. split; [|split; [done|split; [|split; [done|]]]].
    + destruct Hinv as (Hl & Hr & _). by split.
    + intros c. by apply is_mine_field.
    + unfold won. rewrite Hf. apply bool_decide_ext. rewrite <- Hsz. split.
      * intros <-. by rewrite size_empty.
      * intros Hz. symmetry. apply leibniz_equiv, size_empty_inv. lia.
  - assert (target ≠ 0) as Ht by (intros Ht; by destruct (H0 Ht)).
    split; [done|]. split; [done|by intros _].
  - done.
  - assert (target ≠ 0) as Ht by (intros Ht; by destruct (H0 Ht)).
    split; [split; [done|lia]|]. split; [done|intros H; by specialize (H1 H)].
Qed.

(** X18.  Asked for a negative number of mines, or for more mines than
    the board has cells, the constructor never returns: whatever the
    random draws and however many of them, the placing loop of a board
    with positive dimensions is still running. *)
Theorem new_Minesweeper_too_many_mines (draws : list (nat * nat)) (h w target : Z) :
  0 < h → 0 < w → target < 0 ∨ h * w < target →
  new_Minesweeper draws h w target = StillPlacing.
Proof.
  intros Hh Hw Ht. unfold new_Minesweeper.
  pose proof (place_mines_spec draws h w target _ _ (field_inv_empty h w)) as Hs.
  destruct (place_mines draws h w target (empty_field h w) ∅) as [g| | |];
    [|lia|done|done].
  exfalso. destruct Hs as (b' & _ & Hinv & Hsz & _).
  apply field_inv_size in Hinv. nia.
Qed.

(** X18 on a 1 x 1 board asked to hold two mines. *)
Lemma new_Minesweeper_too_many_mines_witness :
  0 < 1 ∧ (1 * 1 < 2) ∧
  new_Minesweeper [(0, 0); (5, 7); (2, 2)]%nat 1 1 2 = StillPlacing.
Proof.
  split; [lia|]. split; [lia|].
  apply (new_Minesweeper_too_many_mines [(0, 0); (5, 7); (2, 2)]%nat 1 1 2); lia.
Defined.

Lemma py_index_range {A : Type} (l : list A) (h i : Z) :
  length l = Z.to_nat h →
  py_index l i =
    if bool_decide (- h ≤ i < h) then l !! Z.to_nat (i `mod` h) else None.
Proof.
  intros Hl. unfold py_index.
  case_bool_decide as H0.
  - case_bool_decide as H1.
    + by rewrite Z.mod_small by lia.
    + apply lookup_ge_None. lia.
  - case_bool_decide as H1.
    + rewrite bool_decide_eq_true_2 by lia. f_equal. f_equal.
      rewrite Hl, Z2Nat.id by lia.
      rewrite <- (Z.mod_small (h + i) h) by lia.
      by rewrite <- (Z.mod_add i 1 h), Z.mul_1_l, Z.add_comm by lia.
    + rewrite bool_decide_eq_false_2; [done|]. lia.
Qed.

(** X19.  [is_mine] does not compare the cell with the board: on a
    board with the dimensions recorded with it, it answers for every
    cell with [-height <= i < height] and [-width <= j < width], a
    negative coordinate counting from the far edge (the answer is that
    of the cell [(i mod height, j mod width)]), and it raises
    [IndexError] for every other cell. *)
Theorem is_mine_wraps_negative_indices (g : Minesweeper) (c : cell) :
  board_ok g →
  if bool_decide (- b_height g ≤ c.1 < b_height g ∧ - b_width g ≤ c.2 < b_width g)
  then ∃ b, is_mine g c = Some b ∧
            is_mine g (c.1 `mod` b_height g, c.2 `mod` b_width g) = Some b
  else is_mine g c = None.
Proof.
  intros [Hl Hr]. unfold is_mine, board_at. cbn [fst snd].
  rewrite !(py_index_range (board g) (b_height g)) by done.
  case_bool_decide as Hb.
  - destruct Hb as [Hi Hj].
    rewrite bool_decide_eq_true_2 by lia.
    rewrite (bool_decide_eq_true_2 (- b_height g ≤ c.1 `mod` b_height g < b_height g)).
    2:{ pose proof (Z.mod_pos_bound c.1 (b_height g)). lia. }
    rewrite Z.mod_mod by lia.
    destruct (lookup_lt_is_Some_2 (board g) (Z.to_nat (c.1 `mod` b_height g)))
      as [row Hrow].
    { pose proof (Z.mod_pos_bound c.1 (b_height g)). lia. }
    rewrite Hrow. simpl.
    rewrite Forall_lookup in Hr. specialize (Hr _ _ Hrow). simpl in Hr.
    rewrite !(py_index_range row (b_width g)) by done.
    rewrite bool_decide_eq_true_2 by lia.
    rewrite (bool_decide_eq_true_2 (- b_width g ≤ c.2 `mod` b_width g < b_width g)).
    2:{ pose proof (Z.mod_pos_bound c.2 (b_width g)). lia. }
    rewrite Z.mod_mod by lia.
    destruct (lookup_lt_is_Some_2 row (Z.to_nat (c.2 `mod` b_width g))) as [b Hv].
    { pose proof (Z.mod_pos_bound c.2 (b_width g)). lia. }
    exists b. by rewrite Hv.
  - case_bool_decide as Hi; [|done].
    destruct (board g !! _) as [row|] eqn:Hrow; [|done]. simpl.
    rewrite Forall_lookup in Hr. specialize (Hr _ _ Hrow). simpl in Hr.
    rewrite (py_index_range row (b_width g)) by done.
    rewrite bool_decide_eq_false_2; [done|]. tauto.
Qed.

(** X19 at the cell [(-3, -2)] of the 3 x 3 board with one mine, which
    reads the square [(0, 1)], the mine. *)
Lemma is_mine_wraps_negative_indices_witness :
  board_ok one_mine_board ∧
  ∃ b, is_mine one_mine_board (-3, -2) = Some b ∧
       is_mine one_mine_board (0, 1) = Some b.
Proof.
  assert (board_ok one_mine_board) as Hok.
  { split; [reflexivity|]. repeat constructor. }
  split; [exact Hok|].
  exact (is_mine_wraps_negative_indices one_mine_board (-3, -2) Hok).
Defined.
